(** * qlbridge: the expression VM, the SQL row evaluator and the schema registry

    A shallow embedding of [vm/vm.go], [vm/sqlvm.go] and of the table-name
    bookkeeping of the [schema] package, followed by the properties of the
    specification that were checked against them.

    Conventions.
    - [int64] values are integers of [Z] kept in the signed 64-bit range by
      [wrap64]; [float64] values are Rocq's primitive binary64 floats.
    - A Go function that may panic returns an [outcome]; [Panic] carries the
      panic value so that [errRecover] can tell a [runtime.Error] from an
      ordinary [error].
    - The walkers of [vm.go] are declared to return [(value.Value, error)] but
      several of them still write the boolean [ok] of an earlier revision in
      the second position.  The second component is therefore an [errflag],
      which keeps the literal the source writes ([nil], an error, [true] or
      [false]); [failed] is the one place where [err != nil] and [!ok] are
      given their meaning.
    - Code outside the sources is a parameter: the packages [value] and
      [glob] are the class [ValuePkg], Go's [strings.ToLower] the class
      [StringsPkg], [hash/fnv] an argument of [AddTable].
    - Logging calls ([u.Warnf], [u.Debugf], ...) have no effect on results and
      are left out; the text that [fmt.Errorf] formats from its operands is
      shortened to the constant part of the message. *)

From Stdlib Require Import ZArith Lia Bool List String Ascii Floats.
From stdpp Require Import gmap strings.
Import ListNotations.

Set Warnings "-register-all".

Local Open Scope string_scope.
Local Open Scope Z_scope.

(** ** Panics *)

Inductive PanicValue : Type :=
| RuntimeError (msg : string)   (* a value implementing [runtime.Error] *)
| ErrorPanic (msg : string)     (* any other [error] *)
| OtherPanic (msg : string).    (* a panic value that is not an [error] *)

Inductive outcome (A : Type) : Type :=
| Ret (a : A)
| Panic (p : PanicValue).
Arguments Ret {A} a.
Arguments Panic {A} p.

Definition bind {A B : Type} (c : outcome A) (k : A -> outcome B) : outcome B :=
  match c with
  | Ret a => k a
  | Panic p => Panic p
  end.

Notation "'do' x <- c ; k" := (bind c (fun x => k))
  (at level 10, x name, c at level 100, k at level 200).
Notation "'do' ' pat <- c ; k" := (bind c (fun x => match x with pat => k end))
  (at level 10, pat pattern, c at level 100, k at level 200).

Definition panics {A : Type} (c : outcome A) : bool :=
  match c with
  | Ret _ => false
  | Panic _ => true
  end.

Definition ErrUnknownNodeType : string := "expr: unknown node type".
Definition integer_divide_by_zero : string := "runtime error: integer divide by zero".
Definition nil_dereference : string :=
  "runtime error: invalid memory address or nil pointer dereference".
Definition index_out_of_range : string := "runtime error: index out of range".

(** ** The second result of a walker *)

Inductive errflag : Type :=
| ErrNil                 (* [nil] *)
| Err (msg : string)     (* a non-nil [error] *)
| OkTrue                 (* the literal [true] *)
| OkFalse.               (* the literal [false] *)

(** [err != nil] for a result written as an error, [!ok] for one written as
    the [ok] flag: both say that the evaluation did not succeed. *)
Definition failed (e : errflag) : bool :=
  match e with
  | ErrNil | OkTrue => false
  | Err _ | OkFalse => true
  end.

Definition errflag_of_ok (ok : bool) : errflag := if ok then OkTrue else OkFalse.

(** ** 64-bit integers and floats *)

Definition int64_min : Z := - 2 ^ 63.
Definition int64_max : Z := 2 ^ 63 - 1.

Definition in_int64 (z : Z) : bool := (int64_min <=? z) && (z <=? int64_max).

(** Two's-complement wrap-around of a mathematical result. *)
Definition wrap64 (z : Z) : Z := (z + 2 ^ 63) mod 2 ^ 64 - 2 ^ 63.

(** [float64(n)] for an [int64]: the nearest binary64, ties to even. *)
Definition float64_of_int64 (n : Z) : float :=
  SF2Prim (binary_normalize prec emax n 0 false).

(** The integer part of a finite binary64, rounded toward zero. *)
Definition trunc_float64 (f : float) : option Z :=
  match Prim2SF f with
  | S754_zero _ => Some 0
  | S754_finite s m e =>
      let mag := if 0 <=? e then Z.pos m * 2 ^ e else Z.pos m / 2 ^ (- e) in
      Some (if s then - mag else mag)
  | S754_infinity _ | S754_nan => None
  end.

(** [int64(f)] for a [float64].  Go truncates toward zero; when the truncated
    value does not fit (or [f] is an infinity or a NaN) the language leaves the
    result to the implementation, and the amd64 code generated by the gc
    compiler yields the most negative integer. *)
Definition int64_of_float64 (f : float) : Z :=
  match trunc_float64 f with
  | Some z => if in_int64 z then z else int64_min
  | None => int64_min
  end.

(** [math.IsNaN]. *)
Definition IsNaN (f : float) : bool := negb (PrimFloat.eqb f f).

Definition NaN : float := PrimFloat.nan.

(** ** Tokens (package [lex]) *)

Inductive TokenType : Type :=
| TokenPlus | TokenMinus | TokenStar | TokenMultiply | TokenDivide | TokenModulus
| TokenEqual | TokenEqualEqual | TokenNE | TokenLT | TokenLE | TokenGT | TokenGE
| TokenLogicOr | TokenLogicAnd | TokenOr | TokenAnd
| TokenNegate | TokenExists | TokenBetween | TokenIN | TokenLike
| TokenIdentity.

Record Token : Type := { T : TokenType; V : string }.

Definition tok (t : TokenType) : Token := {| T := t; V := EmptyString |}.

(** ** Values (package [value]) *)

Inductive Value : Type :=
| nil_Value                         (* the nil interface value *)
| NilValue
| ErrorValue (msg : string)
| BoolValue (b : bool)
| IntValue (n : Z)
| NumberValue (f : float)
| StringValue (s : string)
| StringsValue (ss : list string)
| SliceValue (vs : list Value)
| TimeValue (unix : Z).

Definition BoolValueTrue : Value := BoolValue true.
Definition BoolValueFalse : Value := BoolValue false.
Definition NilValueVal : Value := NilValue.
Definition EmptyStringValue : Value := StringValue EmptyString.
Definition NewErrorValuef (msg : string) : Value := ErrorValue msg.

Inductive ValueType : Type :=
| NilType | ErrorType | BoolType | IntType | NumberType | StringType
| StringsType | SliceType | TimeType.

(** [v.Type()]; calling a method on the nil interface is a runtime panic. *)
Definition Value_Type (v : Value) : outcome ValueType :=
  match v with
  | nil_Value => Panic (RuntimeError nil_dereference)
  | NilValue => Ret NilType
  | ErrorValue _ => Ret ErrorType
  | BoolValue _ => Ret BoolType
  | IntValue _ => Ret IntType
  | NumberValue _ => Ret NumberType
  | StringValue _ => Ret StringType
  | StringsValue _ => Ret StringsType
  | SliceValue _ => Ret SliceType
  | TimeValue _ => Ret TimeType
  end.

(** The parts of package [value] and of [github.com/mb0/glob] that the VM
    calls and whose code is not part of the sources at hand. *)
Class ValuePkg : Type := {
  (** [v.Nil()] *)
  Value_Nil : Value -> bool;
  (** [StringValue.CanCoerce(int64Rv)] *)
  StringValue_CanCoerce_int64 : string -> bool;
  (** [StringValue.NumberValue()] *)
  StringValue_NumberValue : string -> float;
  (** [value.IsBool] and [value.BoolStringVal] *)
  IsBool : string -> bool;
  BoolStringVal : string -> bool;
  (** [value.ToFloat64(reflect.ValueOf(text))] *)
  ToFloat64 : string -> float * bool;
  (** [value.Equal(x, y)]: the verdict and the error *)
  Equal : Value -> Value -> bool * errflag;
  (** [glob.Match(pattern, subject)]: the verdict and the error *)
  glob_Match : string -> string -> bool * errflag
}.

(** ** Contexts (package [expr]) *)

(** [ContextReader.Get(key) (value.Value, bool)]: one input row. *)
Record ContextReader : Type := { Get : string -> Value * bool }.

(** An [expr.EvalContext] held in an interface: [None] is the nil context. *)
Definition EvalContext : Type := option ContextReader.

(** ** Operator tables of [vm.go] *)

Definition unknown_operator : string := "expr: unknown operator".

(** [operateInts(op, av, bv)].  Integer division and remainder by zero raise
    the runtime panic of the Go language; an operator outside the switch
    reaches the final [panic(fmt.Errorf(...))]. *)
Definition operateInts (op : Token) (a b : Z) : outcome Value :=
  match T op with
  | TokenPlus => Ret (IntValue (wrap64 (a + b)))
  | TokenStar | TokenMultiply => Ret (IntValue (wrap64 (a * b)))
  | TokenMinus => Ret (IntValue (wrap64 (a - b)))
  | TokenDivide =>
      if b =? 0 then Panic (RuntimeError integer_divide_by_zero)
      else Ret (IntValue (wrap64 (Z.quot a b)))
  | TokenModulus =>
      if b =? 0 then Panic (RuntimeError integer_divide_by_zero)
      else Ret (IntValue (Z.rem a b))
  | TokenEqualEqual => Ret (if a =? b then BoolValueTrue else BoolValueFalse)
  | TokenGT => Ret (if a >? b then BoolValueTrue else BoolValueFalse)
  | TokenNE => Ret (if negb (a =? b) then BoolValueTrue else BoolValueFalse)
  | TokenLT => Ret (if a <? b then BoolValueTrue else BoolValueFalse)
  | TokenGE => Ret (if a >=? b then BoolValueTrue else BoolValueFalse)
  | TokenLE => Ret (if a <=? b then BoolValueTrue else BoolValueFalse)
  | TokenLogicOr | TokenOr =>
      Ret (if negb (a =? 0) || negb (b =? 0) then BoolValueTrue else BoolValueFalse)
  | TokenLogicAnd =>
      Ret (if negb (a =? 0) && negb (b =? 0) then BoolValueTrue else BoolValueFalse)
  | _ => Panic (ErrorPanic unknown_operator)
  end.

(** The comparisons of Go on [float64]. *)
Definition feq (a b : float) : bool := PrimFloat.eqb a b.
Definition fne (a b : float) : bool := negb (PrimFloat.eqb a b).
Definition flt (a b : float) : bool := PrimFloat.ltb a b.
Definition fgt (a b : float) : bool := PrimFloat.ltb b a.
Definition fle (a b : float) : bool := PrimFloat.leb a b.
Definition fge (a b : float) : bool := PrimFloat.leb b a.

(** [float64(int64(a) % int64(b))], the modulus branch of [operateNumbers]. *)
Definition float_modulus (a b : float) : outcome float :=
  let ia := int64_of_float64 a in
  let ib := int64_of_float64 b in
  if ib =? 0 then Panic (RuntimeError integer_divide_by_zero)
  else Ret (float64_of_int64 (Z.rem ia ib)).

(** [operateNumbers(op, av, bv)]. *)
Definition operateNumbers (op : Token) (a b : float) : outcome Value :=
  let arithmetic :=
    match T op with
    | TokenPlus | TokenStar | TokenMultiply | TokenDivide | TokenMinus
    | TokenModulus => true
    | _ => false
    end in
  if arithmetic && (IsNaN a || IsNaN b) then Ret (NumberValue NaN)
  else
    match T op with
    | TokenPlus => Ret (NumberValue (PrimFloat.add a b))
    | TokenStar | TokenMultiply => Ret (NumberValue (PrimFloat.mul a b))
    | TokenMinus => Ret (NumberValue (PrimFloat.sub a b))
    | TokenDivide => Ret (NumberValue (PrimFloat.div a b))
    | TokenModulus => do r <- float_modulus a b; Ret (NumberValue r)
    | TokenEqualEqual | TokenEqual =>
        Ret (if feq a b then BoolValueTrue else BoolValueFalse)
    | TokenGT => Ret (if fgt a b then BoolValueTrue else BoolValueFalse)
    | TokenNE => Ret (if fne a b then BoolValueTrue else BoolValueFalse)
    | TokenLT => Ret (if flt a b then BoolValueTrue else BoolValueFalse)
    | TokenGE => Ret (if fge a b then BoolValueTrue else BoolValueFalse)
    | TokenLE => Ret (if fle a b then BoolValueTrue else BoolValueFalse)
    | TokenLogicOr | TokenOr =>
        Ret (if fne a PrimFloat.zero || fne b PrimFloat.zero
             then BoolValueTrue else BoolValueFalse)
    | TokenLogicAnd =>
        Ret (if fne a PrimFloat.zero && fne b PrimFloat.zero
             then BoolValueTrue else BoolValueFalse)
    | _ => Panic (ErrorPanic unknown_operator)
    end.

(** ** Syntax trees (package [expr]) *)

(** [strings.ToLower] belongs to Go's library, not to this repository, and
    folds the letters of every script: it is a parameter of the development. *)
Class StringsPkg : Type := { ToLower : string -> string }.

(** A host function as [reflect.Value.Call] sees it: the evaluation context,
    then the evaluated arguments; the value and the [ok] flag come back. *)
Definition HostFunc : Type := EvalContext -> list Value -> outcome (Value * bool).

Inductive Node : Type :=
| nil_Node                                   (* the nil [expr.Node] *)
| NumberNode (IsInt : bool) (Int64 : Z) (IsFloat : bool) (Text : string)
| StringNode (Text : string)
| IdentityNode (Text : string)
| UnaryNode (Operator : Token) (Arg : Node)
| BinaryNode (Operator : Token) (Arg0 Arg1 : Node)
| TriNode (Operator : Token) (Arg0 Arg1 Arg2 : Node)
| MultiArgNode (Operator : Token) (Args : list Node)
| FuncNode (Name : string) (F : HostFunc) (Args : list Node)
| ValueNode (v : Value).

(** Modelled from the spec: [IdentityNode.IsBooleanIdentity()] and
    [IdentityNode.Bool()] live in package [expr]; the identifiers [true] and
    [false] are the boolean literals. *)
Definition IsBooleanIdentity {SP : StringsPkg} (text : string) : bool :=
  String.eqb (ToLower text) "true" || String.eqb (ToLower text) "false".

Definition Identity_Bool {SP : StringsPkg} (text : string) : bool :=
  String.eqb (ToLower text) "true".

(** [expr.Column] and [expr.SqlSelect], with the fields the evaluator reads;
    a missing [Guard] or [Where] is the nil node. *)
Record Column : Type := { As : string; Expr : Node; Guard : Node }.

Record SqlSelect : Type := { Columns : list Column; Where : Node }.

(** The first argument of [ContextWriter.Put]: a column, or the placeholder
    [SchemaInfoEmpty] that [Vm.Execute] passes. *)
Inductive SchemaInfo : Type :=
| ColumnInfo (c : Column)
| SchemaInfoEmpty.

(** A [ContextWriter] is observed through the [Put] calls it receives, oldest
    first. *)
Definition ContextWriter : Type := list (SchemaInfo * Value).

Definition Put (w : ContextWriter) (k : SchemaInfo) (v : Value) : ContextWriter :=
  (w ++ [(k, v)])%list.

Section VM.

Context {VP : ValuePkg} {SP : StringsPkg}.

(** [operateStrings(op, av, bv)].  In the [LIKE] branch the error value built
    for a bad pattern is not returned: control continues with [match]. *)
Definition operateStrings (op : Token) (a b : string) : Value :=
  match T op with
  | TokenEqualEqual | TokenEqual =>
      if String.eqb a b then BoolValueTrue else BoolValueFalse
  | TokenNE =>
      if String.eqb a b then BoolValueFalse else BoolValueTrue
  | TokenLike =>
      let '(matched, err) := glob_Match b a in
      let _ := if failed err then Some (NewErrorValuef "invalid LIKE pattern") else None in
      if matched then BoolValueTrue else BoolValueFalse
  | _ => NewErrorValuef "unsupported operator for strings"
  end.

Definition result : Type := outcome (Value * errflag).

(** [numberNodeToValue(t)]. *)
Definition numberNodeToValue (IsInt : bool) (Int64 : Z) (IsFloat : bool) (Text : string)
  : Value * errflag :=
  if IsInt then (IntValue Int64, ErrNil)
  else if IsFloat then
    let '(fv, ok) := ToFloat64 Text in
    if negb ok then (NilValueVal, Err "Could not convert to number")
    else (NumberValue fv, ErrNil)
  else (NilValueVal, ErrNil).

(** [walkIdentity(ctx, node)]: the pair of [ctx.Get] is returned as it is. *)
Definition walkIdentity (ctx : EvalContext) (text : string) : Value * errflag :=
  if IsBooleanIdentity text then (BoolValue (Identity_Bool text), ErrNil)
  else
    match ctx with
    | None => (StringValue text, ErrNil)
    | Some c => let '(v, ok) := Get c text in (v, errflag_of_ok ok)
    end.

Definition unsupported_binary : Value * errflag :=
  (nil_Value, Err "unsupported binary expression").

(** The body of [walkBinary] once both operands have been evaluated. *)
Definition walkBinary_operands (op : Token) (l r : Value * errflag) : result :=
  let '(ar, aerr) := l in
  let '(br, berr) := r in
  if failed aerr || failed berr then Ret (nil_Value, Err "aerr berr")
  else
    match ar with
    | IntValue a =>
        match br with
        | IntValue b => do n <- operateInts op a b; Ret (n, ErrNil)
        | NumberValue b =>
            do n <- operateNumbers op (float64_of_int64 a) b; Ret (n, ErrNil)
        | _ => Ret unsupported_binary
        end
    | NumberValue a =>
        match br with
        | IntValue b =>
            do n <- operateNumbers op a (float64_of_int64 b); Ret (n, ErrNil)
        | NumberValue b => do n <- operateNumbers op a b; Ret (n, ErrNil)
        | _ => Ret unsupported_binary
        end
    | BoolValue atv =>
        match br with
        | BoolValue btv =>
            match T op with
            | TokenLogicAnd => Ret (BoolValue (atv && btv), ErrNil)
            | TokenLogicOr | TokenOr => Ret (BoolValue (atv || btv), ErrNil)
            | TokenEqualEqual | TokenEqual => Ret (BoolValue (Bool.eqb atv btv), ErrNil)
            | TokenNE => Ret (BoolValue (negb (Bool.eqb atv btv)), ErrNil)
            | _ => Ret unsupported_binary
            end
        | nil_Value | NilValue =>
            match T op with
            | TokenLogicAnd => Ret (BoolValue false, ErrNil)
            | TokenLogicOr | TokenOr => Ret (BoolValue atv, ErrNil)
            | TokenEqualEqual | TokenEqual => Ret (BoolValue false, ErrNil)
            | TokenNE => Ret (BoolValue true, ErrNil)
            | _ => Ret (nil_Value, ErrNil)
            end
        | _ => Ret unsupported_binary
        end
    | StringValue a =>
        match br with
        | StringValue b => Ret (operateStrings op a b, ErrNil)
        | nil_Value | NilValue =>
            match T op with
            | TokenEqualEqual | TokenEqual =>
                if Value_Nil (StringValue a) then Ret (BoolValue true, ErrNil)
                else Ret (BoolValue false, ErrNil)
            | TokenNE =>
                if Value_Nil (StringValue a) then Ret (BoolValue false, ErrNil)
                else Ret (BoolValue true, ErrNil)
            | _ => Ret (nil_Value, Err "unsupported op")
            end
        | BoolValue b =>
            if IsBool a then
              match T op with
              | TokenEqualEqual | TokenEqual =>
                  Ret (BoolValue (Bool.eqb (BoolStringVal a) b), ErrNil)
              | TokenNE => Ret (BoolValue (negb (Bool.eqb (BoolStringVal a) b)), ErrNil)
              | _ => Ret (nil_Value, Err "unsupported op")
              end
            else Ret (nil_Value, Err "unhandled boolean")
        | IntValue b =>
            if StringValue_CanCoerce_int64 a then
              do n <- operateNumbers op (StringValue_NumberValue a) (float64_of_int64 b);
              Ret (n, ErrNil)
            else Ret unsupported_binary
        | NumberValue b =>
            if StringValue_CanCoerce_int64 a then
              do n <- operateNumbers op (StringValue_NumberValue a) b; Ret (n, ErrNil)
            else Ret unsupported_binary
        | _ => Ret unsupported_binary
        end
    | nil_Value | NilValue =>
        match T op with
        | TokenLogicAnd => Ret (BoolValue false, ErrNil)
        | TokenLogicOr | TokenOr =>
            match br with
            | BoolValue b => Ret (BoolValue b, ErrNil)
            | _ => Ret (BoolValue false, ErrNil)
            end
        | TokenEqualEqual | TokenEqual =>
            match br with
            | nil_Value | NilValue => Ret (BoolValue true, ErrNil)
            | _ => Ret (BoolValue false, ErrNil)
            end
        | TokenNE => Ret (BoolValue true, ErrNil)
        | _ => Ret (nil_Value, ErrNil)
        end
    | _ => Ret (nil_Value, Err "unsupported left side value")
    end.

(** The body of [walkUnary] once the argument has been evaluated.
    [value.NumericValue] is implemented by the integer and number values. *)
Definition walkUnary_operand (op : Token) (r : Value * errflag) : result :=
  let '(a, ok) := r in
  if failed ok then
    match T op with
    | TokenExists => Ret (BoolValue false, ErrNil)
    | _ => Ret (a, OkFalse)
    end
  else
    match T op with
    | TokenNegate =>
        match a with
        | BoolValue b => Ret (BoolValue (negb b), OkTrue)
        | _ => Panic (ErrorPanic ErrUnknownNodeType)
        end
    | TokenMinus =>
        match a with
        | IntValue n => Ret (NumberValue (PrimFloat.opp (float64_of_int64 n)), OkTrue)
        | NumberValue f => Ret (NumberValue (PrimFloat.opp f), OkTrue)
        | _ => Ret (NilValue, OkFalse)
        end
    | TokenExists =>
        match a with
        | nil_Value | NilValue => Ret (BoolValue false, OkTrue)
        | _ => Ret (BoolValue true, OkTrue)
        end
    | _ => Ret (NilValue, OkFalse)
    end.

(** The body of [walkTri] once the three operands have been evaluated. *)
Definition walkTri_operands (op : Token) (ra rb rc : Value * errflag) : result :=
  let '(a, aok) := ra in
  let '(b, bok) := rb in
  let '(c, cok) := rc in
  if failed aok || failed bok || failed cok then Ret (BoolValueFalse, OkFalse)
  else
    match T op with
    | TokenBetween =>
        do ty <- Value_Type a;
        match ty with
        | IntType =>
            match a, b, c with
            | IntValue aiv, IntValue biv, IntValue civ =>
                if (aiv >? biv) && (aiv <? civ) then Ret (BoolValue true, OkTrue)
                else Ret (BoolValue false, OkTrue)
            | _, _, _ => Ret (BoolValueFalse, OkFalse)
            end
        | NumberType =>
            match a, b, c with
            | NumberValue afv, NumberValue bfv, NumberValue cfv =>
                if fgt afv bfv && flt afv cfv then Ret (BoolValue true, OkFalse)
                else Ret (BoolValue false, OkTrue)
            | _, _, _ => Ret (BoolValueFalse, OkFalse)
            end
        | _ => Ret (NilValue, OkFalse)
        end
    | _ => Ret (NilValue, OkFalse)
    end.

(** [mval.(value.Slice)] followed by [SliceValue()]. *)
Definition as_Slice (v : Value) : option (list Value) :=
  match v with
  | SliceValue vs => Some vs
  | StringsValue ss => Some (map StringValue ss)
  | _ => None
  end.

(** The scan of [walkMulti] over the slice bound to an identity. *)
Fixpoint in_slice (a : Value) (vals : list Value) : Value * errflag :=
  match vals with
  | [] => (BoolValueFalse, OkTrue)
  | val :: rest =>
      let '(matched, err) := Equal val a in
      if failed err then in_slice a rest
      else if matched then (BoolValueTrue, OkTrue)
      else in_slice a rest
  end.

(** What [walkFunc] does with an argument value that is the nil interface. *)
Definition funcArg_nil (a : Node) (v : Value) : Value :=
  match v with
  | nil_Value =>
      match a with
      | IdentityNode _ => StringValue EmptyString
      | _ => v
      end
  | _ => v
  end.

(** [node.F.F.Call(funcArgs)]: reflection refuses an argument that is the
    zero [reflect.Value], which is what [reflect.ValueOf(nil)] gives. *)
Definition Call (f : HostFunc) (ctx : EvalContext) (args : list Value) : result :=
  if existsb (fun v => match v with nil_Value => true | _ => false end) args
  then Panic (OtherPanic "reflect: Call using zero Value argument")
  else
    do '(v, ok) <- f ctx args;
    if negb ok then Ret (EmptyStringValue, OkFalse) else Ret (v, OkTrue).

(** [Eval(ctx, arg)], with [walkMulti] and [walkFunc] in place because their
    loops run over the argument list of the node. *)
Fixpoint Eval (ctx : EvalContext) (arg : Node) {struct arg} : result :=
  match arg with
  | NumberNode IsInt Int64 IsFloat Text => Ret (numberNodeToValue IsInt Int64 IsFloat Text)
  | BinaryNode op a0 a1 =>
      do ar <- Eval ctx a0;
      do br <- Eval ctx a1;
      walkBinary_operands op ar br
  | UnaryNode op a => do r <- Eval ctx a; walkUnary_operand op r
  | TriNode op a0 a1 a2 =>
      do ra <- Eval ctx a0;
      do rb <- Eval ctx a1;
      do rc <- Eval ctx a2;
      walkTri_operands op ra rb rc
  | MultiArgNode op args =>
      match args with
      | [] => Panic (RuntimeError index_out_of_range)
      | a0 :: rest =>
          do '(a, aok) <- Eval ctx a0;
          if failed aok then Ret (BoolValueFalse, OkFalse)
          else
            match T op with
            | TokenIN =>
                let scan :=
                  (fix scan (l : list Node) : result :=
                     match l with
                     | [] => Ret (BoolValueFalse, OkTrue)
                     | n :: l' =>
                         do '(v, ok) <- Eval ctx n;
                         if negb (failed ok)
                            && (let '(eq, err) := Equal a v in eq && negb (failed err))
                         then Ret (BoolValue true, OkTrue)
                         else scan l'
                     end) in
                match rest with
                | [nil_Node] => Panic (RuntimeError nil_dereference)
                | [IdentityNode text] =>
                    let '(mval, ok) := walkIdentity ctx text in
                    if failed ok then Ret (BoolValueFalse, OkTrue)
                    else
                      match as_Slice mval with
                      | None => Ret (BoolValueFalse, OkFalse)
                      | Some vals => Ret (in_slice a vals)
                      end
                | _ => scan rest
                end
            | _ => Ret (NilValueVal, OkFalse)
            end
      end
  | FuncNode _ f args =>
      let funcArgs :=
        (fix funcArgs (l : list Node) : outcome (list Value) :=
           match l with
           | [] => Ret []
           | a :: l' =>
               do v <-
                 match a with
                 | StringNode t => Ret (StringValue t)
                 | IdentityNode t =>
                     if IsBooleanIdentity t then Ret (BoolValue (Identity_Bool t))
                     else
                       match ctx with
                       | None => Panic (RuntimeError nil_dereference)
                       | Some c =>
                           let '(v, ok) := Get c t in
                           Ret (if negb ok then NilValue else v)
                       end
                 | NumberNode IsInt Int64 IsFloat Text =>
                     Ret (fst (numberNodeToValue IsInt Int64 IsFloat Text))
                 | FuncNode _ _ _ =>
                     do '(v, ok) <- Eval ctx a;
                     Ret (if failed ok then NilValue else v)
                 | UnaryNode _ _ =>
                     do '(v, ok) <- Eval ctx a;
                     Ret (if failed ok then NilValue else v)
                 | BinaryNode _ _ _ => do '(v, _) <- Eval ctx a; Ret v
                 | ValueNode v => Ret v
                 | _ => Panic (ErrorPanic "expr: unknown func arg type")
                 end;
               do vs <- funcArgs l';
               Ret (funcArg_nil a v :: vs)
           end) in
      do vs <- funcArgs args;
      Call f ctx vs
  | IdentityNode text => Ret (walkIdentity ctx text)
  | StringNode text => Ret (StringValue text, ErrNil)
  | nil_Node => Ret (nil_Value, ErrNil)
  | ValueNode _ => Ret (nil_Value, Err "Unknown Node Type")
  end.

(** The walkers under their own names. *)
Definition walkBinary (ctx : EvalContext) (op : Token) (a0 a1 : Node) : result :=
  (Eval ctx (BinaryNode op a0 a1)).

Definition walkUnary (ctx : EvalContext) (op : Token) (a : Node) : result :=
  (Eval ctx (UnaryNode op a)).

Definition walkTri (ctx : EvalContext) (op : Token) (a0 a1 a2 : Node) : result :=
  (Eval ctx (TriNode op a0 a1 a2)).

Definition walkMulti (ctx : EvalContext) (op : Token) (args : list Node) : result :=
  (Eval ctx (MultiArgNode op args)).

Definition walkFunc (ctx : EvalContext) (name : string) (f : HostFunc) (args : list Node)
  : result :=
  (Eval ctx (FuncNode name f args)).

(** ** [Vm.Execute] and [errRecover] *)

(** [errRecover]: an ordinary [error] that was raised by [panic] becomes the
    returned error; a [runtime.Error] and any other panic value are raised
    again. *)
Definition errRecover (r : outcome errflag) : outcome errflag :=
  match r with
  | Ret e => Ret e
  | Panic (RuntimeError msg) => Panic (RuntimeError msg)
  | Panic (ErrorPanic msg) => Ret (Err msg)
  | Panic (OtherPanic msg) => Panic (OtherPanic msg)
  end.

(** [Vm.Execute(writeContext, readContext)] for the tree rooted at [root];
    [State.Walk] is [Eval] on the read context. *)
Definition Execute (root : Node) (writeContext : ContextWriter) (readContext : EvalContext)
  : ContextWriter * outcome errflag :=
  match Eval readContext root with
  | Panic p => (writeContext, errRecover (Panic p))
  | Ret (v, err) =>
      if failed err then (writeContext, Ret err)
      else
        match v with
        | ErrorValue msg => (writeContext, Ret (Err msg))
        | _ => (Put writeContext SchemaInfoEmpty v, Ret ErrNil)
        end
  end.

(** ** [EvalSql] *)

Definition is_nil_Node (n : Node) : bool :=
  match n with
  | nil_Node => true
  | _ => false
  end.

(** The WHERE gate of [EvalSql] on the evaluated WHERE expression: [Some r]
    when the function returns [r] at once, [None] when control reaches the
    projection loop. *)
Definition whereGate (r : Value * errflag) : option (bool * errflag) :=
  let '(whereValue, err) := r in
  if failed err then Some (false, err)
  else
    match whereValue with
    | BoolValue b => if Bool.eqb b false then Some (false, ErrNil) else None
    | nil_Value | NilValue => Some (true, ErrNil)
    | ErrorValue msg => Some (true, Err msg)
    | _ => if Value_Nil whereValue then Some (false, ErrNil) else None
    end.

(** The guard switch of the projection loop: [true] when the loop takes one of
    its [continue] statements. *)
Definition guardSkips (r : Value * errflag) : bool :=
  let '(ifColValue, err) := r in
  if failed err then true
  else
    match ifColValue with
    | BoolValue b => Bool.eqb b false
    | nil_Value | NilValue => true
    | ErrorValue _ => true
    | _ => Value_Nil ifColValue
    end.

(** The projection loop [for _, col := range sel.Columns]. *)
Fixpoint evalColumns (readContext : EvalContext) (cols : list Column)
  (writeContext : ContextWriter) : ContextWriter * outcome (bool * errflag) :=
  match cols with
  | [] => (writeContext, Ret (true, ErrNil))
  | col :: rest =>
      let skip :=
        if is_nil_Node (Guard col) then Ret false
        else do r <- Eval readContext (Guard col); Ret (guardSkips r) in
      match skip with
      | Panic p => (writeContext, Panic p)
      | Ret true => evalColumns readContext rest writeContext
      | Ret false =>
          match Eval readContext (Expr col) with
          | Panic p => (writeContext, Panic p)
          | Ret (v, err) =>
              if failed err then (writeContext, Ret (false, err))
              else evalColumns readContext rest (Put writeContext (ColumnInfo col) v)
          end
      end
  end.

(** [EvalSql(sel, writeContext, readContext)]. *)
Definition EvalSql (sel : SqlSelect) (writeContext : ContextWriter)
  (readContext : EvalContext) : ContextWriter * outcome (bool * errflag) :=
  if is_nil_Node (Where sel) then evalColumns readContext (Columns sel) writeContext
  else
    match Eval readContext (Where sel) with
    | Panic p => (writeContext, Panic p)
    | Ret r =>
        match whereGate r with
        | Some res => (writeContext, Ret res)
        | None => evalColumns readContext (Columns sel) writeContext
        end
    end.

(** ** Builtin functions ([CountFunc] and [SqrtFunc])

    [reflect.Value.Call] panics when the number of arguments is not the one
    the function takes. *)

Definition Value_Err (v : Value) : bool :=
  match v with
  | ErrorValue _ => true
  | _ => false
  end.

Definition wrong_arity : outcome (Value * bool) :=
  Panic (OtherPanic "reflect: Call with wrong number of input arguments").

Definition CountFunc : HostFunc := fun _ args =>
  match args with
  | [val] =>
      if Value_Err val || Value_Nil val then Ret (IntValue 0, false)
      else Ret (IntValue 1, true)
  | _ => wrong_arity
  end.

Definition SqrtFunc : HostFunc := fun _ args =>
  match args with
  | [val] =>
      let numeric :=
        match val with
        | IntValue n => Some (float64_of_int64 n)
        | NumberValue f => Some f
        | _ => None
        end in
      match numeric with
      | None => Ret (NumberValue NaN, false)
      | Some fv =>
          if Value_Err val || Value_Nil val then Ret (NumberValue PrimFloat.zero, false)
          else Ret (NumberValue (PrimFloat.sqrt fv), true)
      end
  | _ => wrong_arity
  end.

End VM.

(** ** The schema registry (package [schema]) *)

Module Schema.

(** [sort.Strings]: ascending byte-wise order, by insertion. *)
Fixpoint insert_sorted (x : string) (l : list string) : list string :=
  match l with
  | [] => [x]
  | y :: r => if String.leb x y then x :: y :: r else y :: insert_sorted x r
  end.

Definition sort_Strings (l : list string) : list string :=
  fold_right insert_sorted [] l.

(** [for _, cur := range names { if name == cur { found = true } }]. *)
Definition found_in (name : string) (names : list string) : bool :=
  existsb (String.eqb name) names.

Record Table : Type := { Table_Name : string; NameOriginal : string; tblId : Z }.

Record SourceConfig : Type := {
  Conf_Name : string;
  SourceType : string;
  TablesToLoad : list string
}.

(** [Schema]: a [*SourceSchema] stored in [tableSources] is identified by the
    name under which [SourceSchemas] holds it; a [*Table] that is nil is
    [None]. *)
Record Schema : Type := {
  Schema_Name : string;
  tableSources : gmap string string;
  Schema_tableMap : gmap string (option Table);
  Schema_tableNames : list string
}.

(** [SourceSchema]; the parent pointer [Schema] is nil for [None]. *)
Record SourceSchema : Type := {
  Name : string;
  Conf : SourceConfig;
  Parent : option Schema;
  tableMap : gmap string (option Table);
  tableNames : list string
}.

(** [(m *Schema) AddTableName(tableName, ss)]. *)
Definition Schema_AddTableName (m : Schema) (tableName : string) (ss : string) : Schema :=
  if found_in tableName (Schema_tableNames m) then m
  else
    let names := sort_Strings (Schema_tableNames m ++ [tableName]) in
    match Schema_tableMap m !! tableName with
    | Some _ =>
        {| Schema_Name := Schema_Name m;
           tableSources := tableSources m;
           Schema_tableMap := Schema_tableMap m;
           Schema_tableNames := names |}
    | None =>
        {| Schema_Name := Schema_Name m;
           tableSources := <[tableName := ss]> (tableSources m);
           Schema_tableMap := <[tableName := None]> (Schema_tableMap m);
           Schema_tableNames := names |}
    end.

(** The allowlist loop of [SourceSchema.AddTableName]: [lowerTable] is
    [tableName] as it was passed. *)
Definition loadTable {SP : StringsPkg} (conf : SourceConfig) (tableName : string) : bool :=
  let lowerTable := tableName in
  existsb (fun tblToLoad => String.eqb (ToLower tblToLoad) lowerTable) (TablesToLoad conf).

(** [(m *SourceSchema) AddTableName(tableName)]. *)
Definition AddTableName {SP : StringsPkg} (m : SourceSchema) (tableName : string)
  : SourceSchema :=
  if (0 <? length (TablesToLoad (Conf m)))%nat && negb (loadTable (Conf m) tableName)
  then m
  else if found_in tableName (tableNames m) then m
  else
    {| Name := Name m;
       Conf := Conf m;
       Parent :=
         match Parent m with
         | None => None
         | Some s => Some (Schema_AddTableName s tableName (Name m))
         end;
       tableMap :=
         match tableMap m !! tableName with
         | Some _ => tableMap m
         | None => <[tableName := None]> (tableMap m)
         end;
       tableNames := sort_Strings (tableNames m ++ [tableName]) |}.

(** [(m *SourceSchema) Tables()]. *)
Definition Tables (m : SourceSchema) : list string := tableNames m.

(** What the specification asks of the allowlist: a name passes when its
    lower-case form is the lower-case form of a listed name. *)
Definition allowed_ci {SP : StringsPkg} (conf : SourceConfig) (tableName : string) : bool :=
  existsb (fun tblToLoad => String.eqb (ToLower tblToLoad) (ToLower tableName))
    (TablesToLoad conf).

End Schema.

(** ** A reference instance of the [value] and [glob] operations

    Used to run the VM on concrete rows; the general results below hold for
    every instance of [ValuePkg] and of [StringsPkg]. *)

Module Stock.

(** [strings.ToLower] on strings of ASCII bytes, where it changes the letters
    [A] to [Z] and nothing else.  The rows, statements and table names of the
    examples are ASCII strings. *)
Definition lower_ascii (c : ascii) : ascii :=
  let n := nat_of_ascii c in
  if ((65 <=? n) && (n <=? 90))%nat then ascii_of_nat (n + 32) else c.

Fixpoint to_lower (s : string) : string :=
  match s with
  | EmptyString => EmptyString
  | String c r => String (lower_ascii c) (to_lower r)
  end.

Definition ascii_strings : StringsPkg := {| ToLower := to_lower |}.

Definition value_nil (v : Value) : bool :=
  match v with
  | NilValue => true
  | StringValue s => (String.length s =? 0)%nat
  | _ => false
  end.

Definition is_digit (c : ascii) : bool :=
  let n := nat_of_ascii c in ((48 <=? n) && (n <=? 57))%nat.

Fixpoint parse_digits (s : string) (acc : Z) : option Z :=
  match s with
  | EmptyString => Some acc
  | String c r =>
      if is_digit c then parse_digits r (10 * acc + Z.of_nat (nat_of_ascii c) - 48)
      else None
  end.

(** Decimal integers are the numeric strings of this instance. *)
Definition to_float64 (s : string) : float * bool :=
  match s with
  | EmptyString => (NaN, false)
  | _ =>
      match parse_digits s 0 with
      | Some z => (float64_of_int64 z, true)
      | None => (NaN, false)
      end
  end.

Definition number_of_string (s : string) : float := fst (to_float64 s).

Definition is_bool (s : string) : bool := IsBooleanIdentity (SP := ascii_strings) s.
Definition bool_string_val (s : string) : bool := Identity_Bool (SP := ascii_strings) s.

Definition equal (x y : Value) : bool * errflag :=
  match x, y with
  | NilValue, NilValue => (true, ErrNil)
  | BoolValue a, BoolValue b => (Bool.eqb a b, ErrNil)
  | IntValue a, IntValue b => (a =? b, ErrNil)
  | NumberValue a, NumberValue b => (feq a b, ErrNil)
  | IntValue a, NumberValue b => (feq (float64_of_int64 a) b, ErrNil)
  | NumberValue a, IntValue b => (feq a (float64_of_int64 b), ErrNil)
  | StringValue a, StringValue b => (String.eqb a b, ErrNil)
  | StringValue a, BoolValue b | BoolValue b, StringValue a =>
      if is_bool a then (Bool.eqb (bool_string_val a) b, ErrNil) else (false, ErrNil)
  | _, _ => (false, ErrNil)
  end.

(** Glob patterns: [*], [?], a class [[...]] and literal bytes; a class that
    is not closed makes the pattern invalid. *)
Inductive glob_item : Type :=
| GStar
| GAny
| GClass (members : list ascii)
| GLit (c : ascii).

Fixpoint glob_parse (p : string) (open_class : option (list ascii))
  : option (list glob_item) :=
  match p with
  | EmptyString =>
      match open_class with
      | None => Some []
      | Some _ => None
      end
  | String c r =>
      match open_class with
      | Some acc =>
          if Ascii.eqb c "]" then option_map (cons (GClass (rev acc))) (glob_parse r None)
          else glob_parse r (Some (c :: acc))
      | None =>
          if Ascii.eqb c "[" then glob_parse r (Some [])
          else
            let item :=
              if Ascii.eqb c "*" then GStar
              else if Ascii.eqb c "?" then GAny
              else GLit c in
            option_map (cons item) (glob_parse r None)
      end
  end.

Fixpoint glob_items_match (items : list glob_item) (s : string) {struct items} : bool :=
  match items with
  | [] => match s with EmptyString => true | _ => false end
  | GStar :: rest =>
      (fix star (t : string) : bool :=
         glob_items_match rest t
         || match t with
            | EmptyString => false
            | String _ t' => star t'
            end) s
  | GAny :: rest =>
      match s with
      | EmptyString => false
      | String _ t => glob_items_match rest t
      end
  | GClass members :: rest =>
      match s with
      | EmptyString => false
      | String c t => existsb (Ascii.eqb c) members && glob_items_match rest t
      end
  | GLit c :: rest =>
      match s with
      | EmptyString => false
      | String d t => Ascii.eqb c d && glob_items_match rest t
      end
  end.

Definition glob_match (pattern subject : string) : bool * errflag :=
  match glob_parse pattern None with
  | None => (false, Err "glob: bad pattern")
  | Some items => (glob_items_match items subject, ErrNil)
  end.

Definition pkg : ValuePkg :=
  {| Value_Nil := value_nil;
     StringValue_CanCoerce_int64 := fun _ => true;
     StringValue_NumberValue := number_of_string;
     IsBool := is_bool;
     BoolStringVal := bool_string_val;
     ToFloat64 := to_float64;
     Equal := equal;
     glob_Match := glob_match |}.

(** A row given as an association list; a missing key is [(nil, false)]. *)
Fixpoint row_Get (row : list (string * Value)) (key : string) : Value * bool :=
  match row with
  | [] => (nil_Value, false)
  | (k, v) :: rest => if String.eqb k key then (v, true) else row_Get rest key
  end.

Definition row (fields : list (string * Value)) : EvalContext :=
  Some {| Get := row_Get fields |}.

End Stock.

(** ** Vocabulary of the properties *)

(** A value that the type switches of the VM take in their [case nil,
    value.NilValue]. *)
Definition is_nil (v : Value) : bool :=
  match v with
  | nil_Value | NilValue => true
  | _ => false
  end.

Section Vocabulary.

Context {VP : ValuePkg} {SP : StringsPkg}.

(** The WHERE clause lets the row through to the projection loop. *)
Definition where_passes (ctx : EvalContext) (wh : Node) : Prop :=
  is_nil_Node wh = true
  \/ exists r, is_nil_Node wh = false /\ Eval ctx wh = Ret r /\ whereGate r = None.

(** The guard of a column lets the column through: there is none, or it
    evaluates to something the guard switch does not skip. *)
Definition guard_passes (ctx : EvalContext) (col : Column) : Prop :=
  is_nil_Node (Guard col) = true
  \/ exists r, is_nil_Node (Guard col) = false
               /\ Eval ctx (Guard col) = Ret r /\ guardSkips r = false.

(** The guard of a column takes the column out of the projection. *)
Definition guard_skips (ctx : EvalContext) (col : Column) : Prop :=
  exists r, is_nil_Node (Guard col) = false
            /\ Eval ctx (Guard col) = Ret r /\ guardSkips r = true.

(** [projects ctx cols puts]: every column of [cols] is either taken out by
    its guard or evaluates without failure, and [puts] lists the columns that
    are kept with their values, in the order of [cols]. *)
Inductive projects (ctx : EvalContext) : list Column -> ContextWriter -> Prop :=
| projects_nil : projects ctx [] []
| projects_skip col rest puts :
    guard_skips ctx col ->
    projects ctx rest puts ->
    projects ctx (col :: rest) puts
| projects_keep col rest puts v e :
    guard_passes ctx col ->
    Eval ctx (Expr col) = Ret (v, e) ->
    failed e = false ->
    projects ctx rest puts ->
    projects ctx (col :: rest) ((ColumnInfo col, v) :: puts).






End Vocabulary.

(** Integers that binary64 holds exactly: the canonical value of a signed
    integer of magnitude below [2 ^ 53]. *)

Definition dig (p : positive) : Z := Z.pos (digits2_pos p).

Definition exact_record (m : Z) : shr_record :=
  {| shr_m := m; shr_r := false; shr_s := false |}.

Definition canon (s : bool) (p : positive) : spec_float :=
  S754_finite s (Z.to_pos (Z.pos p * 2 ^ (53 - dig p))) (dig p - 53).

Definition canonZ (z : Z) : spec_float :=
  match z with
  | Z0 => S754_zero false
  | Z.pos p => canon false p
  | Z.neg p => canon true p
  end.

Definition sgnZ (s : bool) (p : positive) : Z := if s then Z.neg p else Z.pos p.

Definition small53 (z : Z) : Prop := Z.abs z < 2 ^ 53.

(** [v.AsFloat()] on the two numeric kinds. *)
Definition AsFloat (v : Value) : option float :=
  match v with
  | IntValue n => Some (float64_of_int64 n)
  | NumberValue f => Some f
  | _ => None
  end.

(** Both operator tables return, and the results are equal as [float64]
    values under Go's [==]. *)
Definition agree_as_float (x y : outcome Value) : bool :=
  match x, y with
  | Ret vx, Ret vy =>
      match AsFloat vx, AsFloat vy with
      | Some fx, Some fy => feq fx fy
      | _, _ => false
      end
  | _, _ => false
  end.

(** ** Rows, statements and source schemas used in the examples *)

Module Examples.

Import Stock.

Definition int_lit (n : Z) : Node := NumberNode true n false EmptyString.

(** The row [{name: "bob", age: 42, tags: ["x", "y"], note: NULL}]. *)
Definition bob : EvalContext :=
  row [("name", StringValue "bob"); ("age", IntValue 42);
       ("tags", StringsValue ["x"; "y"]); ("note", NilValue)].

Definition empty_row : EvalContext := row [].

(** The row [{f: 2.0, lo: 1.0, hi: 3.0}]. *)
Definition numbers : EvalContext :=
  row [("f", NumberValue 2); ("lo", NumberValue 1); ("hi", NumberValue 3)].

Definition only_bob : SqlSelect :=
  {| Columns := [{| As := "n"; Expr := IdentityNode "name"; Guard := nil_Node |}];
     Where := IdentityNode "note" |}.

Definition where_ip : SqlSelect :=
  {| Columns := [{| As := "n"; Expr := IdentityNode "name"; Guard := nil_Node |}];
     Where := IdentityNode "ip" |}.


Definition col_name : Column :=
  {| As := "n"; Expr := IdentityNode "name"; Guard := nil_Node |}.



Definition csv_users : Schema.SourceSchema :=
  {| Schema.Name := "csv";
     Schema.Conf :=
       {| Schema.Conf_Name := "csv"; Schema.SourceType := "csv";
          Schema.TablesToLoad := ["users"] |};
     Schema.Parent := None;
     Schema.tableMap := ∅;
     Schema.tableNames := [] |}.

End Examples.

(** ** More of the VM: [Evaluator] and closed expressions *)

Section Evaluators.

Context {VP : ValuePkg} {SP : StringsPkg}.

(** [Evaluator(arg)]: the closure built for a node, applied to a context.
    Its type switch has no [case nil]: the nil node reaches [default]. *)
Definition Evaluator (arg : Node) : EvalContext -> result :=
  match arg with
  | NumberNode IsInt Int64 IsFloat Text =>
      fun _ => Ret (numberNodeToValue IsInt Int64 IsFloat Text)
  | BinaryNode op a0 a1 => fun ctx => walkBinary ctx op a0 a1
  | UnaryNode op a => fun ctx => walkUnary ctx op a
  | FuncNode name f args => fun ctx => walkFunc ctx name f args
  | IdentityNode text => fun ctx => Ret (walkIdentity ctx text)
  | StringNode text => fun _ => Ret (StringValue text, ErrNil)
  | TriNode op a0 a1 a2 => fun ctx => walkTri ctx op a0 a1 a2
  | MultiArgNode op args => fun ctx => walkMulti ctx op args
  | nil_Node | ValueNode _ => fun _ => Ret (nil_Value, Err "Unknown Node Type")
  end.

End Evaluators.

(** An expression without identities and without function calls. *)
Fixpoint closed (n : Node) : bool :=
  match n with
  | nil_Node | NumberNode _ _ _ _ | StringNode _ | ValueNode _ => true
  | IdentityNode _ | FuncNode _ _ _ => false
  | UnaryNode _ a => closed a
  | BinaryNode _ a0 a1 => closed a0 && closed a1
  | TriNode _ a0 a1 a2 => closed a0 && closed a1 && closed a2
  | MultiArgNode _ args => forallb closed args
  end.

(** The argument nodes that [walkFunc] evaluates without looking at the
    context and without a panic. *)
Definition literal_arg (n : Node) : bool :=
  match n with
  | StringNode _ | NumberNode _ _ _ _ | ValueNode _ => true
  | _ => false
  end.

(** The argument nodes for which the type switch of [walkFunc] has no case. *)
Definition unknown_func_arg (n : Node) : bool :=
  match n with
  | nil_Node | TriNode _ _ _ _ | MultiArgNode _ _ => true
  | _ => false
  end.

(** The right-hand side of [IN] is a list of expressions, not the single
    identity (or nil node) that [walkMulti] treats apart. *)
Definition in_list_form (rest : list Node) : bool :=
  match rest with
  | [nil_Node] | [IdentityNode _] => false
  | _ => true
  end.

(** One step of the scan of [a IN (v1, v2, ...)] on an evaluated item. *)
Definition in_item_matches {VP : ValuePkg} (a : Value) (r : Value * errflag) : bool :=
  let '(v, ok) := r in
  negb (failed ok) && (let '(eq, err) := Equal a v in eq && negb (failed err)).

(** One step of the scan of [a IN ident] on an element of the slice. *)
Definition slice_item_matches {VP : ValuePkg} (a val : Value) : bool :=
  let '(matched, err) := Equal val a in negb (failed err) && matched.

(** ** Order of table names

    [sort.Strings] orders by Go's [<] on strings, the byte-wise order that
    [String.leb] computes. *)

Definition leb_str (a b : string) : Prop := String.leb a b = true.

(** An ascending list: every element is below all the elements behind it. *)
Fixpoint ascending (l : list string) : Prop :=
  match l with
  | [] => True
  | x :: l' => Forall (leb_str x) l' /\ ascending l'
  end.

(** ** Registering tables: [addTable], [AddTable] and the state they keep *)

Module Registry.

Import Schema.

(** What [AddTableName] keeps true of a schema: the names are ascending and
    without duplicates, every listed name has an entry in [tableMap], and
    every entry of [tableMap] has a source. *)
Definition Schema_consistent (m : Schema) : Prop :=
  List.NoDup (Schema_tableNames m) /\
  ascending (Schema_tableNames m) /\
  (forall n, In n (Schema_tableNames m) -> is_Some (Schema_tableMap m !! n)) /\
  (forall n, is_Some (Schema_tableMap m !! n) -> is_Some (tableSources m !! n)).

(** The same for a source schema, whose parent is consistent as well. *)
Definition consistent (m : SourceSchema) : Prop :=
  List.NoDup (tableNames m) /\
  ascending (tableNames m) /\
  (forall n, In n (tableNames m) -> is_Some (tableMap m !! n)) /\
  match Parent m with
  | None => True
  | Some s => Schema_consistent s
  end.

(** [(m *Schema) addTable(tbl)]; [owner] is the name of [tbl.SourceSchema]. *)
Definition Schema_addTable (m : Schema) (tbl : Table) (owner : string) : Schema :=
  Schema_AddTableName
    {| Schema_Name := Schema_Name m;
       tableSources := <[Table_Name tbl := owner]> (tableSources m);
       Schema_tableMap := <[Table_Name tbl := Some tbl]> (Schema_tableMap m);
       Schema_tableNames := Schema_tableNames m |}
    (Table_Name tbl) owner.

Section AddTable.

Context {SP : StringsPkg}.

(** [hash/fnv]: the 64-bit sum of [fnv.New64] over the bytes written. *)
Variable fnv_Sum64 : string -> Z.

(** [(m *SourceSchema) AddTable(tbl)].  [tbl] is a pointer: the table that
    the parent schema and [tableMap] hold is the one whose [tblId] is set, and
    it is returned beside the source schema.  [owner] is the name of
    [tbl.SourceSchema]. *)
Definition AddTable (m : SourceSchema) (tbl : Table) (owner : string)
  : SourceSchema * Table :=
  let tbl' := {| Table_Name := Table_Name tbl;
                 NameOriginal := NameOriginal tbl;
                 tblId := fnv_Sum64 (Table_Name tbl) |} in
  let m1 := {| Name := Name m;
               Conf := Conf m;
               Parent :=
                 match Parent m with
                 | None => None
                 | Some s => Some (Schema_addTable s tbl' owner)
                 end;
               tableMap := <[Table_Name tbl := Some tbl']> (tableMap m);
               tableNames := tableNames m |} in
  (AddTableName m1 (Table_Name tbl), tbl').

End AddTable.

End Registry.

(** ** Fields and columns of a table *)

Module TableFields.

Record Field : Type := {
  idx : Z;
  Field_Name : string;
  Description : string;
  Length : Z;
  Field_Type : ValueType
}.

(** The part of [Table] that [AddField] and [SetColumns] work on. *)
Record Table : Type := {
  FieldPositions : gmap string Z;
  Fields : list Field;
  FieldMap : gmap string Field;
  cols : list string
}.

(** [(m *Table) HasField(name)]. *)
Definition HasField (m : Table) (name : string) : bool :=
  match FieldMap m !! name with
  | Some _ => true
  | None => false
  end.

(** The loop of [AddField]: the first field named as [fld] is replaced by
    it; [None] when the loop ends with [found] false. *)
Fixpoint replace_found (fld : Field) (fs : list Field) : option (list Field) :=
  match fs with
  | [] => None
  | curFld :: r =>
      if String.eqb (Field_Name curFld) (Field_Name fld) then Some (fld :: r)
      else match replace_found fld r with
           | Some r' => Some (curFld :: r')
           | None => None
           end
  end.

(** [(m *Table) AddField(fld)].  [fld] is a pointer, and [idx] is written
    through it when the name is new: the field as it is afterwards is
    returned beside the table. *)
Definition AddField (m : Table) (fld : Field) : Table * Field :=
  match replace_found fld (Fields m) with
  | Some fs =>
      ({| FieldPositions := FieldPositions m;
          Fields := fs;
          FieldMap := <[Field_Name fld := fld]> (FieldMap m);
          cols := cols m |}, fld)
  | None =>
      let fld' := {| idx := Z.of_nat (length (Fields m));
                     Field_Name := Field_Name fld;
                     Description := Description fld;
                     Length := Length fld;
                     Field_Type := Field_Type fld |} in
      ({| FieldPositions := FieldPositions m;
          Fields := Fields m ++ [fld'];
          FieldMap := <[Field_Name fld := fld']> (FieldMap m);
          cols := cols m |}, fld')
  end.

(** [(m *Table) AddFieldType(name, valType)]. *)
Definition AddFieldType (m : Table) (name : string) (valType : ValueType) : Table :=
  fst (AddField m {| idx := 0; Field_Name := name; Description := EmptyString;
                     Length := 0; Field_Type := valType |}).

(** [for idx, col := range cols { m.FieldPositions[col] = idx }]. *)
Fixpoint positions (idx : Z) (cols : list string) (mp : gmap string Z) : gmap string Z :=
  match cols with
  | [] => mp
  | col :: r => positions (idx + 1) r (<[col := idx]> mp)
  end.

(** [(m *Table) SetColumns(cols)]. *)
Definition SetColumns (m : Table) (cols : list string) : Table :=
  {| FieldPositions := positions 0 cols ∅;
     Fields := Fields m;
     FieldMap := FieldMap m;
     cols := cols |}.

(** [(m *Table) Columns()] and [FieldNamesPositions()]. *)
Definition Columns (m : Table) : list string := cols m.
Definition FieldNamesPositions (m : Table) : gmap string Z := FieldPositions m.

(** The first field of a list with a given name. *)
Definition field_named (name : string) (fs : list Field) : option Field :=
  List.find (fun f => String.eqb (Field_Name f) name) fs.

(** What [AddField] keeps true of a table: field names are unique and
    [FieldMap] finds exactly the fields of [Fields]. *)
Definition fields_consistent (m : Table) : Prop :=
  List.NoDup (map Field_Name (Fields m)) /\
  forall name, FieldMap m !! name = field_named name (Fields m).

End TableFields.

(** ** Schemas and tables used in the examples *)

Module Catalog.

Import Schema.

(** FNV-1 in 64 bits, the sum of [fnv.New64]: for every byte the hash is
    multiplied by the prime and then xor-ed with the byte. *)
Definition fnv1_64 (s : string) : Z :=
  fold_left (fun hash c => Z.lxor ((hash * 1099511628211) mod 2 ^ 64) (Z.of_N (N_of_ascii c)))
    (list_ascii_of_string s) 14695981039346656037.

Definition users_tbl : Table :=
  {| Table_Name := "users"; NameOriginal := "Users"; tblId := 0 |}.

Definition orders_tbl : Table :=
  {| Table_Name := "orders"; NameOriginal := "Orders"; tblId := 0 |}.

(** An empty schema. *)
Definition catalog : Schema :=
  {| Schema_Name := "catalog"; tableSources := ∅; Schema_tableMap := ∅;
     Schema_tableNames := [] |}.

(** A schema that holds the table [users] of the source [mysql] and does
    not list its name yet. *)
Definition catalog_users : Schema :=
  {| Schema_Name := "catalog";
     tableSources := {[ "users" := "mysql" ]};
     Schema_tableMap := {[ "users" := Some users_tbl ]};
     Schema_tableNames := [] |}.

(** The source [csv], loading only [users], inside the empty schema. *)
Definition csv_in_catalog : SourceSchema :=
  {| Name := "csv";
     Conf := {| Conf_Name := "csv"; SourceType := "csv"; TablesToLoad := ["users"] |};
     Parent := Some catalog;
     tableMap := ∅;
     tableNames := [] |}.

(** A source without allowlist and without parent. *)
Definition memdb : SourceSchema :=
  {| Name := "memdb";
     Conf := {| Conf_Name := "memdb"; SourceType := "memdb"; TablesToLoad := [] |};
     Parent := None;
     tableMap := ∅;
     tableNames := [] |}.

Definition name_fld : TableFields.Field :=
  {| TableFields.idx := 0; TableFields.Field_Name := "name";
     TableFields.Description := "COLUMN_NAME"; TableFields.Length := 255;
     TableFields.Field_Type := StringType |}.

(** A field named [name] again, numbered 7 by its maker. *)
Definition name_fld' : TableFields.Field :=
  {| TableFields.idx := 7; TableFields.Field_Name := "name";
     TableFields.Description := EmptyString; TableFields.Length := 32;
     TableFields.Field_Type := StringType |}.

Definition age_fld : TableFields.Field :=
  {| TableFields.idx := 0; TableFields.Field_Name := "age";
     TableFields.Description := EmptyString; TableFields.Length := 8;
     TableFields.Field_Type := IntType |}.

(** A table with the one field [name]. *)
Definition people : TableFields.Table :=
  {| TableFields.FieldPositions := ∅;
     TableFields.Fields := [name_fld];
     TableFields.FieldMap := {[ "name" := name_fld ]};
     TableFields.cols := [] |}.

End Catalog.

(** * Properties *)

Section Properties.

Context {VP : ValuePkg} {SP : StringsPkg}.

(** ** Evaluation equations *)

Lemma Eval_BinaryNode ctx op a0 a1 :
  Eval ctx (BinaryNode op a0 a1) =
  (do ar <- Eval ctx a0; do br <- Eval ctx a1; walkBinary_operands op ar br).
Proof. reflexivity. Qed.

Lemma Eval_TriNode ctx op a0 a1 a2 :
  Eval ctx (TriNode op a0 a1 a2) =
  (do ra <- Eval ctx a0; do rb <- Eval ctx a1; do rc <- Eval ctx a2;
   walkTri_operands op ra rb rc).
Proof. reflexivity. Qed.

Lemma Eval_int_literal ctx n text :
  Eval ctx (NumberNode true n false text) = Ret (IntValue n, ErrNil).
Proof. reflexivity. Qed.

Lemma walkBinary_evaluated ctx op a0 a1 l r :
  Eval ctx a0 = Ret l -> Eval ctx a1 = Ret r ->
  walkBinary ctx op a0 a1 = walkBinary_operands op l r.
Proof.
  intros Hl Hr. unfold walkBinary. rewrite Eval_BinaryNode, Hl, Hr. reflexivity.
Qed.

(** ** Integer operators *)

(** C5.  On two integers the comparison operators [==], [!=], [<], [<=], [>]
    and [>=] give the boolean of the comparison, but the single [=] is not a
    case of [operateInts]: it reaches the final [panic], whereas
    [operateNumbers] answers [=] like [==]. *)
Theorem operateInts_comparisons (a b : Z) (v : string) :
  operateInts {| T := TokenEqualEqual; V := v |} a b = Ret (BoolValue (a =? b))
  /\ operateInts {| T := TokenNE; V := v |} a b = Ret (BoolValue (negb (a =? b)))
  /\ operateInts {| T := TokenLT; V := v |} a b = Ret (BoolValue (a <? b))
  /\ operateInts {| T := TokenLE; V := v |} a b = Ret (BoolValue (a <=? b))
  /\ operateInts {| T := TokenGT; V := v |} a b = Ret (BoolValue (b <? a))
  /\ operateInts {| T := TokenGE; V := v |} a b = Ret (BoolValue (b <=? a))
  /\ operateInts {| T := TokenEqual; V := v |} a b = Panic (ErrorPanic unknown_operator)
  /\ operateNumbers {| T := TokenEqual; V := v |} (float64_of_int64 a) (float64_of_int64 b)
     = Ret (BoolValue (feq (float64_of_int64 a) (float64_of_int64 b))).
Proof.
  unfold operateInts, operateNumbers, BoolValueTrue, BoolValueFalse; cbn [T andb].
  rewrite Z.gtb_ltb, Z.geb_leb.
  repeat split;
    match goal with
    | |- Ret (if ?c then _ else _) = _ => destruct c; reflexivity
    | |- _ => reflexivity
    end.
Qed.

(** Under [Vm.Execute] the panic of [=] is an ordinary error, which
    [errRecover] returns; nothing is written. *)
Lemma Execute_int_single_equal ctx w a b ta tb v :
  Execute (BinaryNode {| T := TokenEqual; V := v |}
             (NumberNode true a false ta) (NumberNode true b false tb)) w ctx
  = (w, Ret (Err unknown_operator)).
Proof. reflexivity. Qed.

(** ** Strings *)

(** C7.  When [glob.Match] reports an error for the pattern, the [LIKE]
    branch of [operateStrings] still answers with the boolean verdict that
    came with the error: the result is a Bool, not an Error value. *)
Theorem operateStrings_like_bad_pattern (a b v : string) (matched : bool) (err : errflag) :
  glob_Match b a = (matched, err) ->
  failed err = true ->
  operateStrings {| T := TokenLike; V := v |} a b = BoolValue matched.
Proof.
  intros Hm _. unfold operateStrings; cbn [T]. rewrite Hm.
  destruct matched; reflexivity.
Qed.

(** ** Nil operands of a binary expression *)

(** C4.  With a nil value on both sides, [!=] answers [true], which is also
    the answer of [==]: the [TokenNE] case of the nil-left branch does not
    look at the right operand. *)
Theorem walkBinary_nil_ne_nil ctx a0 a1 l r el er v :
  Eval ctx a0 = Ret (l, el) -> Eval ctx a1 = Ret (r, er) ->
  failed el = false -> failed er = false ->
  is_nil l = true -> is_nil r = true ->
  walkBinary ctx {| T := TokenNE; V := v |} a0 a1 = Ret (BoolValue true, ErrNil)
  /\ walkBinary ctx {| T := TokenEqualEqual; V := v |} a0 a1 = Ret (BoolValue true, ErrNil).
Proof.
  intros Hl Hr Fl Fr Nl Nr.
  rewrite !(walkBinary_evaluated _ _ _ _ _ _ Hl Hr).
  unfold walkBinary_operands. rewrite Fl, Fr. cbn [orb T].
  destruct l; try discriminate Nl; destruct r; try discriminate Nr; split; reflexivity.
Qed.

(** Where the negation does hold: a nil left operand against a right operand
    that is not nil, and a Bool or String left operand against nil. *)
Lemma walkBinary_operands_nil_left v l r el er :
  failed el = false -> failed er = false ->
  is_nil l = true -> is_nil r = false ->
  walkBinary_operands {| T := TokenEqualEqual; V := v |} (l, el) (r, er)
    = Ret (BoolValue false, ErrNil)
  /\ walkBinary_operands {| T := TokenNE; V := v |} (l, el) (r, er)
    = Ret (BoolValue true, ErrNil).
Proof.
  intros Fl Fr Nl Nr. unfold walkBinary_operands. rewrite Fl, Fr. cbn [orb T].
  destruct l; try discriminate Nl; destruct r; try discriminate Nr; split; reflexivity.
Qed.

Lemma walkBinary_operands_nil_right v l r el er :
  failed el = false -> failed er = false ->
  is_nil r = true ->
  match l with
  | BoolValue _ | StringValue _ =>
      exists b,
        walkBinary_operands {| T := TokenEqualEqual; V := v |} (l, el) (r, er)
          = Ret (BoolValue b, ErrNil)
        /\ walkBinary_operands {| T := TokenNE; V := v |} (l, el) (r, er)
          = Ret (BoolValue (negb b), ErrNil)
  | IntValue _ | NumberValue _ =>
      walkBinary_operands {| T := TokenEqualEqual; V := v |} (l, el) (r, er)
        = Ret unsupported_binary
      /\ walkBinary_operands {| T := TokenNE; V := v |} (l, el) (r, er)
        = Ret unsupported_binary
  | _ => True
  end.
Proof.
  intros Fl Fr Nr. unfold walkBinary_operands. rewrite Fl, Fr. cbn [orb T].
  destruct l; try exact I; destruct r; try discriminate Nr;
    try (split; reflexivity).
  - exists false; split; reflexivity.
  - exists false; split; reflexivity.
  - exists (Value_Nil (StringValue s)); destruct (Value_Nil (StringValue s)); split; reflexivity.
  - exists (Value_Nil (StringValue s)); destruct (Value_Nil (StringValue s)); split; reflexivity.
Qed.

(** ** Division by zero *)

(** C3, as amended.  For integer operands [a / b] leaves [Vm.Execute] with the
    truncated quotient written when [b] is not zero; when [b] is zero the
    division raises the runtime panic of Go, which [errRecover] raises again,
    so that it escapes [Execute] and nothing is written. *)
Theorem Execute_int_division ctx w a0 a1 a b ea eb v :
  Eval ctx a0 = Ret (IntValue a, ea) -> Eval ctx a1 = Ret (IntValue b, eb) ->
  failed ea = false -> failed eb = false ->
  (b <> 0 ->
   Execute (BinaryNode {| T := TokenDivide; V := v |} a0 a1) w ctx
   = (Put w SchemaInfoEmpty (IntValue (wrap64 (Z.quot a b))), Ret ErrNil))
  /\ (b = 0 ->
      walkBinary ctx {| T := TokenDivide; V := v |} a0 a1
      = Panic (RuntimeError integer_divide_by_zero)
      /\ Execute (BinaryNode {| T := TokenDivide; V := v |} a0 a1) w ctx
         = (w, Panic (RuntimeError integer_divide_by_zero))).
Proof.
  intros Ha Hb Fa Fb.
  assert (E : Eval ctx (BinaryNode {| T := TokenDivide; V := v |} a0 a1)
              = (do n <- operateInts {| T := TokenDivide; V := v |} a b; Ret (n, ErrNil))).
  { rewrite Eval_BinaryNode, Ha, Hb. cbn [bind walkBinary_operands].
    rewrite Fa, Fb. reflexivity. }
  unfold Execute, walkBinary. rewrite E. unfold operateInts; cbn [T].
  split.
  - intro Hnz. apply Z.eqb_neq in Hnz. rewrite Hnz. reflexivity.
  - intro Hz. subst b. split; reflexivity.
Qed.

(** ** Modulus on numbers *)

(** C10, as amended.  With a NaN operand the guard at the head of
    [operateNumbers] answers NaN before the modulus is reached; otherwise both
    operands are converted to [int64], a zero divisor raises the runtime
    panic, and the integer remainder is converted back. *)
Theorem operateNumbers_modulus (a b : float) (v : string) :
  operateNumbers {| T := TokenModulus; V := v |} a b =
  if IsNaN a || IsNaN b then Ret (NumberValue NaN)
  else if int64_of_float64 b =? 0 then Panic (RuntimeError integer_divide_by_zero)
  else Ret (NumberValue
              (float64_of_int64 (Z.rem (int64_of_float64 a) (int64_of_float64 b)))).
Proof.
  unfold operateNumbers, float_modulus; cbn [T andb].
  destruct (IsNaN a || IsNaN b); [reflexivity|].
  destruct (int64_of_float64 b =? 0); reflexivity.
Qed.

(** ** The WHERE gate of [EvalSql] *)

Lemma EvalSql_where_evaluated sel w ctx r :
  is_nil_Node (Where sel) = false ->
  Eval ctx (Where sel) = Ret r ->
  EvalSql sel w ctx =
  match whereGate r with
  | Some res => (w, Ret res)
  | None => evalColumns ctx (Columns sel) w
  end.
Proof. intros Hn He. unfold EvalSql. rewrite Hn, He. reflexivity. Qed.

(** An identity that the read context does not hold makes [Eval] fail. *)
Lemma Eval_missing_identity c text val :
  IsBooleanIdentity text = false ->
  Get c text = (val, false) ->
  Eval (Some c) (IdentityNode text) = Ret (val, OkFalse).
Proof.
  intros Hb Hg. cbn [Eval]. unfold walkIdentity. rewrite Hb, Hg. reflexivity.
Qed.

(** C1, as amended.  Once the WHERE expression has been evaluated, a failed
    evaluation returns [(false, err)]; an evaluation without failure returns
    [(false, nil)] for [Bool(false)], [(true, nil)] for a nil value and
    [(true, err)] for an Error value, whatever the columns are and with
    nothing written.  An identity missing from the read context is a failed
    evaluation, not a nil result. *)
Theorem EvalSql_where_gate sel w ctx v e :
  is_nil_Node (Where sel) = false ->
  Eval ctx (Where sel) = Ret (v, e) ->
  (failed e = true -> EvalSql sel w ctx = (w, Ret (false, e)))
  /\ (failed e = false -> v = BoolValue false ->
      EvalSql sel w ctx = (w, Ret (false, ErrNil)))
  /\ (failed e = false -> is_nil v = true ->
      EvalSql sel w ctx = (w, Ret (true, ErrNil)))
  /\ (forall msg, failed e = false -> v = ErrorValue msg ->
      EvalSql sel w ctx = (w, Ret (true, Err msg)))
  /\ (forall c text,
      ctx = Some c -> Where sel = IdentityNode text ->
      IsBooleanIdentity text = false -> snd (Get c text) = false ->
      EvalSql sel w ctx = (w, Ret (false, OkFalse))).
Proof.
  intros Hn He.
  pose proof (EvalSql_where_evaluated sel w ctx (v, e) Hn He) as E.
  unfold whereGate in E.
  repeat split.
  - intro F. rewrite F in E. exact E.
  - intros F ->. rewrite F in E. exact E.
  - intros F N. rewrite F in E. destruct v; try discriminate N; exact E.
  - intros msg F ->. rewrite F in E. exact E.
  - intros c text -> Hw Hb Hg. rewrite Hw in He.
    destruct (Get c text) as [val ok] eqn:G. cbn [snd] in Hg. subst ok.
    rewrite (Eval_missing_identity c text val Hb G) in He.
    injection He as <- <-. exact E.
Qed.

(** ** Comparisons of binary64 values *)

Lemma SFcompare_Eq_sym x y : SFcompare x y = Some Eq -> SFcompare y x = Some Eq.
Proof.
  destruct x as [sx|sx| |sx mx ex], y as [sy|sy| |sy my ey]; cbn;
    try discriminate; try reflexivity;
    try (destruct sx; discriminate); try (destruct sy; discriminate).
  - destruct sx, sy; try discriminate; reflexivity.
  - destruct sx, sy; try discriminate.
    + destruct (Z.compare_spec ex ey) as [->| |]; try discriminate.
      rewrite Z.compare_refl.
      destruct (Pos.compare_cont Eq mx my) eqn:C; try discriminate.
      apply Pos.compare_eq in C. subst. now rewrite Pos.compare_cont_refl.
    + destruct (Z.compare_spec ex ey) as [->| |]; try discriminate.
      rewrite Z.compare_refl.
      destruct (Pos.compare_cont Eq mx my) eqn:C; try discriminate.
      apply Pos.compare_eq in C. subst. now rewrite Pos.compare_cont_refl.
Qed.

Lemma feq_flt a b : feq a b = true -> flt a b = false /\ flt b a = false.
Proof.
  unfold feq, flt. rewrite FloatAxioms.eqb_spec, !FloatAxioms.ltb_spec. unfold SFeqb, SFltb.
  destruct (SFcompare (Prim2SF a) (Prim2SF b)) as [[| |]|] eqn:C; try discriminate.
  intros _. rewrite (SFcompare_Eq_sym _ _ C). split; reflexivity.
Qed.

(** ** BETWEEN *)

Lemma walkTri_evaluated ctx op a0 a1 a2 ra rb rc :
  Eval ctx a0 = Ret ra -> Eval ctx a1 = Ret rb -> Eval ctx a2 = Ret rc ->
  walkTri ctx op a0 a1 a2 = walkTri_operands op ra rb rc.
Proof.
  intros Ha Hb Hc. unfold walkTri. rewrite Eval_TriNode, Ha, Hb, Hc. reflexivity.
Qed.

(** C2.  When the three operands of [a BETWEEN b AND c] evaluate to integers,
    or all three to numbers, the value that [walkTri] returns is
    [Bool(b < a && a < c)] with both comparisons strict, and when [a] equals
    [b] or [c] the result is [Bool(false)] with the flag [true], no failure.
    For integers the flag is [true] throughout; for numbers strictly inside
    the range the source writes [false] next to [Bool(true)], so that this
    one result counts as a failed evaluation. *)
Theorem walkTri_between ctx a0 a1 a2 ea eb ec v :
  failed ea = false -> failed eb = false -> failed ec = false ->
  (forall a b c : Z,
     Eval ctx a0 = Ret (IntValue a, ea) ->
     Eval ctx a1 = Ret (IntValue b, eb) ->
     Eval ctx a2 = Ret (IntValue c, ec) ->
     walkTri ctx {| T := TokenBetween; V := v |} a0 a1 a2
       = Ret (BoolValue ((b <? a) && (a <? c)), OkTrue)
     /\ (a = b \/ a = c ->
         walkTri ctx {| T := TokenBetween; V := v |} a0 a1 a2
           = Ret (BoolValue false, OkTrue)))
  /\ (forall a b c : float,
        Eval ctx a0 = Ret (NumberValue a, ea) ->
        Eval ctx a1 = Ret (NumberValue b, eb) ->
        Eval ctx a2 = Ret (NumberValue c, ec) ->
        walkTri ctx {| T := TokenBetween; V := v |} a0 a1 a2
          = Ret (BoolValue (flt b a && flt a c),
                 if flt b a && flt a c then OkFalse else OkTrue)
        /\ (feq a b = true \/ feq a c = true ->
            walkTri ctx {| T := TokenBetween; V := v |} a0 a1 a2
              = Ret (BoolValue false, OkTrue))).
Proof.
  intros Fa Fb Fc. split.
  - intros a b c Ha Hb Hc.
    rewrite (walkTri_evaluated _ _ _ _ _ _ _ _ Ha Hb Hc).
    unfold walkTri_operands. rewrite Fa, Fb, Fc. cbn [orb T Value_Type bind].
    rewrite Z.gtb_ltb.
    split.
    + destruct ((b <? a) && (a <? c)); reflexivity.
    + intros [-> | ->].
      * rewrite Z.ltb_irrefl. reflexivity.
      * rewrite Z.ltb_irrefl, andb_false_r. reflexivity.
  - intros a b c Ha Hb Hc.
    rewrite (walkTri_evaluated _ _ _ _ _ _ _ _ Ha Hb Hc).
    unfold walkTri_operands. rewrite Fa, Fb, Fc. cbn [orb T Value_Type bind].
    unfold fgt. fold (flt b a).
    split.
    + destruct (flt b a && flt a c); reflexivity.
    + intros [E | E]; apply feq_flt in E; destruct E as [E1 E2].
      * rewrite E2. reflexivity.
      * rewrite E1, andb_false_r. reflexivity.
Qed.

(** ** Column guards *)

Lemma evalColumns_skip ctx col rest w :
  guard_skips ctx col ->
  evalColumns ctx (col :: rest) w = evalColumns ctx rest w.
Proof.
  intros (r & Hn & He & Hs). cbn [evalColumns]. rewrite Hn, He. cbn [bind].
  rewrite Hs. reflexivity.
Qed.

Lemma evalColumns_keep ctx col rest w v e :
  guard_passes ctx col ->
  Eval ctx (Expr col) = Ret (v, e) -> failed e = false ->
  evalColumns ctx (col :: rest) w = evalColumns ctx rest (Put w (ColumnInfo col) v).
Proof.
  intros Hg He Hf. cbn [evalColumns].
  destruct Hg as [Hn | (r & Hn & Hr & Hs)].
  - rewrite Hn, He, Hf. reflexivity.
  - rewrite Hn, Hr. cbn [bind]. rewrite Hs, He, Hf. reflexivity.
Qed.

(** Taking a skipped column out of the list changes nothing. *)
Lemma evalColumns_remove_skipped ctx c cs1 cs2 :
  guard_skips ctx c ->
  forall w, evalColumns ctx (cs1 ++ c :: cs2) w = evalColumns ctx (cs1 ++ cs2) w.
Proof.
  intros Hs. induction cs1 as [|col cs1 IH]; intro w.
  - apply evalColumns_skip. exact Hs.
  - cbn [app evalColumns].
    destruct (if is_nil_Node (Guard col) then Ret false
              else do r <- Eval ctx (Guard col); Ret (guardSkips r)) as [[|]|p].
    + apply IH.
    + destruct (Eval ctx (Expr col)) as [[v e]|p]; [|reflexivity].
      destruct (failed e); [reflexivity|]. apply IH.
    + reflexivity.
Qed.


Lemma EvalSql_where_passes ctx wh cols w :
  where_passes ctx wh ->
  EvalSql {| Columns := cols; Where := wh |} w ctx = evalColumns ctx cols w.
Proof.
  intros [Hn | (r & Hn & He & Hg)]; unfold EvalSql; cbn [Where Columns]; rewrite Hn.
  - reflexivity.
  - rewrite He, Hg. reflexivity.
Qed.








End Properties.

(** ** The table allowlist of a source schema *)

Lemma lower_ascii_idempotent c :
  Stock.lower_ascii (Stock.lower_ascii c) = Stock.lower_ascii c.
Proof. destruct c as [[] [] [] [] [] [] [] []]; reflexivity. Qed.

Lemma to_lower_idempotent s : Stock.to_lower (Stock.to_lower s) = Stock.to_lower s.
Proof.
  induction s as [|c s IH]; [reflexivity|].
  cbn [Stock.to_lower]. rewrite lower_ascii_idempotent, IH. reflexivity.
Qed.

Lemma In_insert_sorted x y l : In x (Schema.insert_sorted y l) <-> x = y \/ In x l.
Proof.
  induction l as [|z l IH]; cbn [Schema.insert_sorted].
  - cbn. intuition.
  - destruct (String.leb y z); cbn [In]; [intuition|]. rewrite IH. intuition.
Qed.

Lemma In_sort_Strings x l : In x (Schema.sort_Strings l) <-> In x l.
Proof.
  unfold Schema.sort_Strings. induction l as [|y l IH]; [reflexivity|].
  cbn [fold_right In]. rewrite In_insert_sorted, IH. intuition.
Qed.

Lemma found_in_In name names : Schema.found_in name names = true <-> In name names.
Proof.
  unfold Schema.found_in. rewrite existsb_exists. split.
  - intros (x & Hx & E). apply String.eqb_eq in E. now subst.
  - intro H. exists name. split; [exact H | apply String.eqb_refl].
Qed.

Section Allowlist.

Context {SP : StringsPkg}.

Lemma loadTable_In conf name :
  Schema.loadTable conf name = true <-> In name (map ToLower (Schema.TablesToLoad conf)).
Proof.
  unfold Schema.loadTable. rewrite existsb_exists, in_map_iff. split.
  - intros (x & Hx & E). apply String.eqb_eq in E. eauto.
  - intros (x & E & Hx). exists x. split; [exact Hx|]. now apply String.eqb_eq.
Qed.

(** C9.  With a non-empty [TablesToLoad], [AddTableName] lets a name in only
    when the name itself is the lower-case form of a listed name: the listed
    names are folded with [strings.ToLower], the name passed in is not.  A name
    that is not the lower-case form of a listed name is refused, also when it
    matches a listed name up to case; and where folding a folded name changes
    nothing, every name that folding changes is refused. *)
Theorem AddTableName_allowlist (m : Schema.SourceSchema) (name : string) :
  Schema.TablesToLoad (Schema.Conf m) <> [] ->
  (In name (Schema.Tables (Schema.AddTableName m name))
   <-> In name (Schema.Tables m)
       \/ In name (map ToLower (Schema.TablesToLoad (Schema.Conf m))))
  /\ (~ In name (map ToLower (Schema.TablesToLoad (Schema.Conf m))) ->
      Schema.AddTableName m name = m)
  /\ ((forall s, ToLower (ToLower s) = ToLower s) ->
      ToLower name <> name -> Schema.AddTableName m name = m).
Proof.
  intro Hne.
  assert (Hlen : (0 <? length (Schema.TablesToLoad (Schema.Conf m)))%nat = true).
  { destruct (Schema.TablesToLoad (Schema.Conf m)); [congruence | reflexivity]. }
  assert (Hrefused : ~ In name (map ToLower (Schema.TablesToLoad (Schema.Conf m))) ->
                     Schema.AddTableName m name = m).
  { intro Hnot. unfold Schema.AddTableName. rewrite Hlen. cbn [andb].
    destruct (Schema.loadTable (Schema.Conf m) name) eqn:L; [|reflexivity].
    exfalso. apply Hnot, loadTable_In, L. }
  split; [|split].
  - unfold Schema.AddTableName, Schema.Tables. rewrite Hlen. cbn [andb].
    destruct (Schema.loadTable (Schema.Conf m) name) eqn:L; cbn [negb].
    + apply loadTable_In in L.
      destruct (Schema.found_in name (Schema.tableNames m)) eqn:F.
      * apply found_in_In in F. tauto.
      * cbn [Schema.tableNames]. rewrite In_sort_Strings, in_app_iff. cbn [In]. tauto.
    + split; [tauto|]. intros [H | H]; [exact H|].
      apply loadTable_In in H. congruence.
  - exact Hrefused.
  - intros Hidem Hcase. apply Hrefused. intro Hin.
    apply Hcase. apply in_map_iff in Hin.
    destruct Hin as (x & <- & _). apply Hidem.
Qed.

End Allowlist.

(** ** Integers in binary64 arithmetic *)


Lemma digits2_pos_size p : digits2_pos p = Pos.size p.
Proof. induction p; cbn; congruence. Qed.

Lemma dig_log2 p : dig p = Z.log2 (Z.pos p) + 1.
Proof.
  unfold dig. rewrite digits2_pos_size.
  destruct p; cbn [Pos.size Z.log2]; rewrite ?Pos2Z.inj_succ; lia.
Qed.

Lemma dig_bounds p : 2 ^ (dig p - 1) <= Z.pos p < 2 ^ dig p.
Proof.
  rewrite dig_log2. replace (Z.log2 (Z.pos p) + 1 - 1) with (Z.log2 (Z.pos p)) by lia.
  apply Z.log2_spec. lia.
Qed.

Lemma dig_pos p : 1 <= dig p.
Proof. unfold dig. lia. Qed.

Lemma dig_le p n : 0 <= n -> Z.pos p < 2 ^ n -> dig p <= n.
Proof.
  intros Hn H. rewrite dig_log2.
  assert (Z.log2 (Z.pos p) < n) by (apply Z.log2_lt_pow2; lia). lia.
Qed.

Lemma dig_shift p k m : 0 <= k -> Z.pos m = Z.pos p * 2 ^ k -> dig m = dig p + k.
Proof.
  intros Hk E. rewrite !dig_log2, E, Z.log2_mul_pow2 by lia. lia.
Qed.

Lemma Zpos_iter_xO x q : Z.pos (Pos.iter xO x q) = Z.pos x * 2 ^ Z.pos q.
Proof.
  change (Pos.iter xO x q) with (shift_pos q x).
  rewrite shift_pos_correct, Z.pow_pos_fold. lia.
Qed.


Lemma iter_shr_1_exact q :
  forall x, SpecFloat.iter_pos shr_1 q (exact_record (Z.pos (Pos.iter xO x q))) = exact_record (Z.pos x).
Proof.
  induction q as [q IH|q IH|]; intro x; cbn [SpecFloat.iter_pos Pos.iter].
  - cbn [shr_1 exact_record orb]. fold (exact_record (Z.pos (Pos.iter xO (Pos.iter xO x q) q))).
    rewrite IH, IH. reflexivity.
  - rewrite IH, IH. reflexivity.
  - reflexivity.
Qed.


Lemma fexp_dig p : Z.pos p < 2 ^ 53 -> fexp prec emax (dig p) = dig p - 53.
Proof.
  intro H. pose proof (dig_pos p). unfold fexp, SpecFloat.emin, prec, emax. lia.
Qed.

Lemma binary_round_aux_exact s p k m :
  Z.pos p < 2 ^ 53 -> 53 - dig p <= k -> Z.pos m = Z.pos p * 2 ^ k ->
  binary_round_aux prec emax s (Z.pos m) (- k) loc_Exact = canon s p.
Proof.
  intros Hp Hk Hm.
  pose proof (dig_le p 53 ltac:(lia) Hp) as Hd. pose proof (dig_pos p) as Hd1.
  assert (Hk0 : 0 <= k) by lia.
  set (x := Z.to_pos (Z.pos p * 2 ^ (53 - dig p))).
  assert (Hx : Z.pos x = Z.pos p * 2 ^ (53 - dig p)).
  { unfold x. rewrite Z2Pos.id; [reflexivity|]. apply Z.mul_pos_pos; [lia|]. apply Z.pow_pos_nonneg; lia. }
  assert (Hdx : dig x = 53).
  { rewrite (dig_shift p (53 - dig p) x) by (lia || exact Hx). lia. }
  assert (Hdm : dig m = dig p + k) by (apply dig_shift; assumption).
  unfold binary_round_aux, shr_fexp. cbn [Zdigits2 shr_record_of_loc].
  fold (dig m). rewrite Hdm.
  replace (dig p + k + - k) with (dig p) by lia. rewrite (fexp_dig p Hp).
  fold (exact_record (Z.pos m)).
  assert (S1 : shr (exact_record (Z.pos m)) (- k) (dig p - 53 - - k) = (exact_record (Z.pos x), dig p - 53)).
  { destruct (dig p - 53 - - k) as [|q|q] eqn:Q; try lia.
    - cbn [shr]. f_equal; [|lia]. f_equal. rewrite Hm, Hx. f_equal. f_equal. lia.
    - cbn [shr]. f_equal; [|lia].
      assert (Em : m = Pos.iter xO x q).
      { apply Pos2Z.inj. rewrite Zpos_iter_xO, Hm, Hx, <- Z.mul_assoc, <- Z.pow_add_r by lia.
        f_equal. f_equal. lia. }
      rewrite Em. apply iter_shr_1_exact. }
  rewrite S1. cbn [exact_record shr_m loc_of_shr_record round_nearest_even Zdigits2 shr_record_of_loc].
  fold (dig x). rewrite Hdx.
  replace (53 + (dig p - 53)) with (dig p) by lia. rewrite (fexp_dig p Hp), Z.sub_diag.
  cbn [shr shr_m].
  replace (dig p - 53 <=? emax - prec) with true by (symmetry; apply Z.leb_le; unfold emax, prec; lia).
  reflexivity.
Qed.

Lemma binary_round_exact s p k m :
  Z.pos p < 2 ^ 53 -> 0 <= k -> Z.pos m = Z.pos p * 2 ^ k ->
  binary_round prec emax s m (- k) = canon s p.
Proof.
  intros Hp Hk Hm.
  pose proof (dig_le p 53 ltac:(lia) Hp) as Hd.
  unfold binary_round. fold (dig m). rewrite (dig_shift p k m Hk Hm).
  replace (dig p + k + - k) with (dig p) by lia. rewrite (fexp_dig p Hp).
  unfold shl_align.
  destruct (dig p - 53 - - k) as [|q|q] eqn:Q.
  - apply binary_round_aux_exact; [assumption|lia|assumption].
  - apply binary_round_aux_exact; [assumption|lia|assumption].
  - replace (dig p - 53) with (- (53 - dig p)) by lia.
    apply binary_round_aux_exact; [assumption|lia|].
    rewrite Zpos_iter_xO, Hm, <- Z.mul_assoc, <- Z.pow_add_r by lia.
    f_equal. f_equal. lia.
Qed.



Lemma binary_normalize_exact z k :
  Z.abs z < 2 ^ 53 -> 0 <= k ->
  binary_normalize prec emax (z * 2 ^ k) (- k) false = canonZ z.
Proof.
  intros Hz Hk.
  assert (P : 0 < 2 ^ k) by (apply Z.pow_pos_nonneg; lia).
  destruct z as [|p|p]; cbn [canonZ].
  - reflexivity.
  - destruct (Z.pos p * 2 ^ k) as [|m|m] eqn:E; try lia.
    cbn [binary_normalize]. apply binary_round_exact; [lia|lia|lia].
  - destruct (Z.neg p * 2 ^ k) as [|m|m] eqn:E; try lia.
    cbn [binary_normalize]. apply binary_round_exact; [lia|lia|lia].
Qed.

Lemma binary_normalize_int z :
  Z.abs z < 2 ^ 53 -> binary_normalize prec emax z 0 false = canonZ z.
Proof.
  intro Hz.
  rewrite <- (binary_normalize_exact z 0 Hz ltac:(lia)). f_equal. lia.
Qed.

Lemma canon_mantissa p :
  Z.pos p < 2 ^ 53 ->
  Z.pos (Z.to_pos (Z.pos p * 2 ^ (53 - dig p))) = Z.pos p * 2 ^ (53 - dig p).
Proof.
  intro Hp. pose proof (dig_le p 53 ltac:(lia) Hp).
  rewrite Z2Pos.id; [reflexivity|]. apply Z.mul_pos_pos; [lia|]. apply Z.pow_pos_nonneg; lia.
Qed.

Lemma canon_valid s p : Z.pos p < 2 ^ 53 -> valid_binary (canon s p) = true.
Proof.
  intro Hp. pose proof (dig_le p 53 ltac:(lia) Hp) as Hd. pose proof (dig_pos p).
  unfold canon. cbn [SpecFloat.valid_binary]. unfold bounded, canonical_mantissa.
  set (x := Z.to_pos (Z.pos p * 2 ^ (53 - dig p))).
  assert (Hdx : dig x = 53).
  { rewrite (dig_shift p (53 - dig p) x); [lia|lia|]. apply canon_mantissa, Hp. }
  fold (dig x). rewrite Hdx. replace (53 + (dig p - 53)) with (dig p) by lia.
  rewrite (fexp_dig p Hp), Z.eqb_refl. cbn [andb].
  apply Z.leb_le. unfold emax, prec. lia.
Qed.

Lemma canonZ_valid z : Z.abs z < 2 ^ 53 -> valid_binary (canonZ z) = true.
Proof. destruct z; intro H; [reflexivity| |]; apply canon_valid; lia. Qed.

Lemma shl_align_fst m e e' :
  e' <= e -> Z.pos (fst (shl_align m e e')) = Z.pos m * 2 ^ (e - e').
Proof.
  intro H. unfold shl_align. destruct (e' - e) as [|q|q] eqn:Q; try lia; cbn [fst].
  - replace (e - e') with 0 by lia. lia.
  - rewrite Zpos_iter_xO. f_equal. f_equal. lia.
Qed.

(** The signed integer that a canonical value stands for, scaled to the
    exponent [ez]. *)
Lemma canon_aligned s p ez :
  Z.pos p < 2 ^ 53 -> ez <= dig p - 53 ->
  cond_Zopp s (Z.pos (fst (shl_align (Z.to_pos (Z.pos p * 2 ^ (53 - dig p))) (dig p - 53) ez)))
  = (if s then Z.neg p else Z.pos p) * 2 ^ (- ez).
Proof.
  intros Hp He. pose proof (dig_le p 53 ltac:(lia) Hp) as Hd.
  rewrite shl_align_fst by lia. rewrite canon_mantissa by assumption.
  rewrite <- Z.mul_assoc, <- Z.pow_add_r by lia.
  replace (53 - dig p + (dig p - 53 - ez)) with (- ez) by lia.
  destruct s; cbn [cond_Zopp]; lia.
Qed.


Lemma canonZ_sgnZ s p : canonZ (sgnZ s p) = canon s p.
Proof. destruct s; reflexivity. Qed.

Lemma SFadd_canon sa pa sb pb :
  Z.pos pa < 2 ^ 53 -> Z.pos pb < 2 ^ 53 -> Z.abs (sgnZ sa pa + sgnZ sb pb) < 2 ^ 53 ->
  SFadd prec emax (canon sa pa) (canon sb pb) = canonZ (sgnZ sa pa + sgnZ sb pb).
Proof.
  intros Ha Hb Hab.
  pose proof (dig_le pa 53 ltac:(lia) Ha). pose proof (dig_le pb 53 ltac:(lia) Hb).
  unfold canon. cbn [SFadd].
  set (ez := Z.min (dig pa - 53) (dig pb - 53)).
  rewrite !canon_aligned by (assumption || lia).
  fold (sgnZ sa pa) (sgnZ sb pb). rewrite <- Z.mul_add_distr_r.
  replace ez with (- - ez) at 2 by lia.
  apply binary_normalize_exact; lia.
Qed.

Lemma SFsub_canon sa pa sb pb :
  Z.pos pa < 2 ^ 53 -> Z.pos pb < 2 ^ 53 -> Z.abs (sgnZ sa pa - sgnZ sb pb) < 2 ^ 53 ->
  SFsub prec emax (canon sa pa) (canon sb pb) = canonZ (sgnZ sa pa - sgnZ sb pb).
Proof.
  intros Ha Hb Hab.
  pose proof (dig_le pa 53 ltac:(lia) Ha). pose proof (dig_le pb 53 ltac:(lia) Hb).
  unfold canon. cbn [SFsub].
  set (ez := Z.min (dig pa - 53) (dig pb - 53)).
  rewrite !canon_aligned by (assumption || lia).
  fold (sgnZ sa pa) (sgnZ sb pb). rewrite <- Z.mul_sub_distr_r.
  replace ez with (- - ez) at 2 by lia.
  apply binary_normalize_exact; lia.
Qed.

Lemma SFmul_canon sa pa sb pb :
  Z.pos (pa * pb) < 2 ^ 53 ->
  SFmul prec emax (canon sa pa) (canon sb pb) = canon (xorb sa sb) (pa * pb).
Proof.
  intros Hab.
  assert (Ha : Z.pos pa < 2 ^ 53) by nia.
  assert (Hb : Z.pos pb < 2 ^ 53) by nia.
  pose proof (dig_le pa 53 ltac:(lia) Ha). pose proof (dig_le pb 53 ltac:(lia) Hb).
  pose proof (dig_bounds pa) as Ba. pose proof (dig_bounds pb) as Bb.
  pose proof (dig_bounds (pa * pb)) as Bab.
  pose proof (dig_pos pa). pose proof (dig_pos pb).
  assert (Hd : dig pa + dig pb - 2 < dig (pa * pb)).
  { apply (Z.pow_lt_mono_r_iff 2); [lia|unfold dig; lia|].
    replace (dig pa + dig pb - 2) with ((dig pa - 1) + (dig pb - 1)) by lia.
    rewrite Z.pow_add_r by lia.
    apply Z.le_lt_trans with (Z.pos pa * Z.pos pb); [|rewrite <- Pos2Z.inj_mul; lia].
    apply Z.mul_le_mono_nonneg; try lia; apply Z.pow_nonneg; lia. }
  unfold canon at 1 2. cbn [SFmul].
  replace (dig pa - 53 + (dig pb - 53)) with (- (106 - dig pa - dig pb)) by lia.
  apply binary_round_aux_exact; [assumption|lia|].
  rewrite Pos2Z.inj_mul, !canon_mantissa by assumption.
  replace (106 - dig pa - dig pb) with ((53 - dig pa) + (53 - dig pb)) by lia.
  rewrite Z.pow_add_r by lia. rewrite Pos2Z.inj_mul. ring.
Qed.

Lemma SFdiv_canon sa pa sb pb pc :
  Z.pos pa < 2 ^ 53 -> Z.pos pb < 2 ^ 53 -> pa = (pb * pc)%positive ->
  SFdiv prec emax (canon sa pa) (canon sb pb) = canon (xorb sa sb) pc.
Proof.
  intros Ha Hb E.
  assert (Hc : Z.pos pc < 2 ^ 53) by (subst pa; nia).
  pose proof (dig_le pa 53 ltac:(lia) Ha). pose proof (dig_le pb 53 ltac:(lia) Hb).
  pose proof (dig_bounds pa) as Ba. pose proof (dig_bounds pb) as Bb.
  pose proof (dig_bounds pc) as Bc.
  pose proof (dig_pos pa). pose proof (dig_pos pb). pose proof (dig_pos pc).
  assert (Hd : dig pa - 1 < dig pb + dig pc).
  { apply (Z.pow_lt_mono_r_iff 2); [lia|lia|].
    rewrite Z.pow_add_r by lia.
    apply Z.le_lt_trans with (Z.pos pa); [lia|].
    subst pa. rewrite Pos2Z.inj_mul.
    apply Z.mul_lt_mono_nonneg; lia. }
  set (ma := Z.to_pos (Z.pos pa * 2 ^ (53 - dig pa))).
  set (mb := Z.to_pos (Z.pos pb * 2 ^ (53 - dig pb))).
  assert (Hma : Z.pos ma = Z.pos pa * 2 ^ (53 - dig pa)) by (apply canon_mantissa, Ha).
  assert (Hmb : Z.pos mb = Z.pos pb * 2 ^ (53 - dig pb)) by (apply canon_mantissa, Hb).
  assert (Dma : dig ma = 53) by (rewrite (dig_shift pa (53 - dig pa) ma); lia).
  assert (Dmb : dig mb = 53) by (rewrite (dig_shift pb (53 - dig pb) mb); lia).
  set (k := 53 - dig pa + dig pb).
  unfold canon at 1 2. fold ma mb. cbn [SFdiv]. unfold SFdiv_core_binary.
  cbn [Zdigits2]. fold (dig ma) (dig mb). rewrite Dma, Dmb.
  replace (53 + (dig pa - 53) - (53 + (dig pb - 53))) with (dig pa - dig pb) by lia.
  replace (fexp prec emax (dig pa - dig pb)) with (dig pa - dig pb - 53)
    by (unfold fexp, SpecFloat.emin, prec, emax; lia).
  replace (Z.min (dig pa - dig pb - 53) (dig pa - 53 - (dig pb - 53))) with (- k) by (unfold k; lia).
  replace (dig pa - 53 - (dig pb - 53) - - k) with 53 by (unfold k; lia).
  assert (Q : Z.shiftl (Z.pos ma) 53 = Z.pos mb * (Z.pos pc * 2 ^ k)).
  { rewrite Z.shiftl_mul_pow2 by lia. rewrite Hma, Hmb. subst pa. rewrite Pos2Z.inj_mul.
    unfold k. rewrite (Z.pow_add_r 2 (53 - dig (pb * pc)) (dig pb)) by lia.
    replace (2 ^ 53) with (2 ^ (53 - dig pb) * 2 ^ dig pb)
      by (rewrite <- Z.pow_add_r by lia; f_equal; lia).
    ring. }
  rewrite Q.
  assert (Dq : Z.div_eucl (Z.pos mb * (Z.pos pc * 2 ^ k)) (Z.pos mb) = (Z.pos pc * 2 ^ k, 0)).
  { pose proof (Z.div_mul (Z.pos pc * 2 ^ k) (Z.pos mb) ltac:(lia)) as D.
    pose proof (Z.mod_mul (Z.pos pc * 2 ^ k) (Z.pos mb) ltac:(lia)) as M.
    rewrite (Z.mul_comm (Z.pos mb)). unfold Z.div, Z.modulo in D, M.
    destruct (Z.div_eucl (Z.pos pc * 2 ^ k * Z.pos mb) (Z.pos mb)) as [q r].
    cbn [fst snd] in D, M. congruence. }
  rewrite Dq.
  assert (NL : new_location (Z.pos mb) 0 = loc_Exact).
  { unfold new_location, new_location_even, new_location_odd.
    destruct (Z.even (Z.pos mb)); reflexivity. }
  rewrite NL.
  assert (Pq : 0 < Z.pos pc * 2 ^ k).
  { apply Z.mul_pos_pos; [lia|]. apply Z.pow_pos_nonneg; unfold k; lia. }
  destruct (Z.pos pc * 2 ^ k) as [|q|q] eqn:Eq; try lia.
  apply binary_round_aux_exact; [assumption|unfold k; lia|lia].
Qed.

(** *** From signed integers to the operations on [float64] *)

Lemma nonzero_sgnZ z : z <> 0 -> exists s p, z = sgnZ s p.
Proof.
  destruct z as [|p|p]; intro H; [congruence| |].
  - exists false, p. reflexivity.
  - exists true, p. reflexivity.
Qed.

Lemma sgnZ_abs s p : Z.abs (sgnZ s p) = Z.pos p.
Proof. destruct s; reflexivity. Qed.

Lemma sgnZ_mul sa pa sb pb : sgnZ sa pa * sgnZ sb pb = sgnZ (xorb sa sb) (pa * pb).
Proof. destruct sa, sb; reflexivity. Qed.

Lemma sgnZ_inj sa pa sb pb : sgnZ sa pa = sgnZ sb pb -> sa = sb /\ pa = pb.
Proof. destruct sa, sb; cbn; intro H; try discriminate; injection H as ->; auto. Qed.

Lemma SFadd_canonZ a b :
  small53 a -> small53 b -> small53 (a + b) ->
  SFadd prec emax (canonZ a) (canonZ b) = canonZ (a + b).
Proof.
  unfold small53. intros Ha Hb Hab.
  destruct (Z.eq_dec a 0) as [-> | Na].
  { destruct b; reflexivity. }
  destruct (Z.eq_dec b 0) as [-> | Nb].
  { rewrite Z.add_0_r. destruct a; reflexivity. }
  destruct (nonzero_sgnZ a Na) as (sa & pa & ->).
  destruct (nonzero_sgnZ b Nb) as (sb & pb & ->).
  rewrite sgnZ_abs in Ha, Hb. rewrite !canonZ_sgnZ.
  apply SFadd_canon; assumption.
Qed.

Lemma SFsub_canonZ a b :
  small53 a -> small53 b -> small53 (a - b) ->
  SFsub prec emax (canonZ a) (canonZ b) = canonZ (a - b).
Proof.
  unfold small53. intros Ha Hb Hab.
  destruct (Z.eq_dec b 0) as [-> | Nb].
  { rewrite Z.sub_0_r. destruct a; reflexivity. }
  destruct (Z.eq_dec a 0) as [-> | Na].
  { destruct b; try congruence; reflexivity. }
  destruct (nonzero_sgnZ a Na) as (sa & pa & ->).
  destruct (nonzero_sgnZ b Nb) as (sb & pb & ->).
  rewrite sgnZ_abs in Ha, Hb. rewrite !canonZ_sgnZ.
  apply SFsub_canon; assumption.
Qed.

Lemma SFeqb_canonZ_refl z : SFeqb (canonZ z) (canonZ z) = true.
Proof.
  unfold SFeqb. destruct z as [|p|p]; cbn; try reflexivity;
    rewrite Z.compare_refl, Pos.compare_cont_refl; reflexivity.
Qed.

Lemma SFmul_canonZ a b :
  small53 a -> small53 b -> small53 (a * b) ->
  SFeqb (SFmul prec emax (canonZ a) (canonZ b)) (canonZ (a * b)) = true.
Proof.
  unfold small53. intros Ha Hb Hab.
  destruct (Z.eq_dec a 0) as [-> | Na].
  { destruct b; reflexivity. }
  destruct (Z.eq_dec b 0) as [-> | Nb].
  { rewrite Z.mul_0_r. destruct a; reflexivity. }
  destruct (nonzero_sgnZ a Na) as (sa & pa & ->).
  destruct (nonzero_sgnZ b Nb) as (sb & pb & ->).
  rewrite sgnZ_mul in *. rewrite sgnZ_abs in Hab. rewrite !canonZ_sgnZ.
  rewrite SFmul_canon by assumption. rewrite <- canonZ_sgnZ. apply SFeqb_canonZ_refl.
Qed.

Lemma SFdiv_canonZ a b :
  small53 a -> small53 b -> b <> 0 -> Z.rem a b = 0 ->
  SFeqb (SFdiv prec emax (canonZ a) (canonZ b)) (canonZ (Z.quot a b)) = true.
Proof.
  unfold small53. intros Ha Hb Nb Hr.
  pose proof (Z.quot_rem' a b) as E. rewrite Hr, Z.add_0_r in E.
  destruct (Z.eq_dec a 0) as [-> | Na].
  { rewrite Z.quot_0_l by assumption. destruct b; try congruence; reflexivity. }
  assert (Nc : Z.quot a b <> 0) by (intro H; rewrite H in E; lia).
  destruct (nonzero_sgnZ a Na) as (sa & pa & Ea).
  destruct (nonzero_sgnZ b Nb) as (sb & pb & Eb).
  destruct (nonzero_sgnZ _ Nc) as (sc & pc & Ec).
  rewrite Ec, Ea, Eb in *. rewrite sgnZ_mul in E. apply sgnZ_inj in E as [-> ->].
  rewrite sgnZ_abs in Ha, Hb. rewrite !canonZ_sgnZ.
  rewrite (SFdiv_canon _ _ sb pb pc) by (assumption || reflexivity).
  replace (xorb (xorb sb sc) sb) with sc by (destruct sb, sc; reflexivity).
  rewrite <- canonZ_sgnZ. apply SFeqb_canonZ_refl.
Qed.

Lemma Prim2SF_of_int z : small53 z -> Prim2SF (float64_of_int64 z) = canonZ z.
Proof.
  intro Hz. unfold float64_of_int64. rewrite (binary_normalize_int z Hz).
  apply Prim2SF_SF2Prim, canonZ_valid, Hz.
Qed.

Lemma feq_SFeqb x y : feq x y = SFeqb (Prim2SF x) (Prim2SF y).
Proof. apply FloatAxioms.eqb_spec. Qed.

Lemma of_int_not_NaN z : small53 z -> IsNaN (float64_of_int64 z) = false.
Proof.
  intro Hz. unfold IsNaN. fold (feq (float64_of_int64 z) (float64_of_int64 z)).
  rewrite feq_SFeqb, (Prim2SF_of_int z Hz), SFeqb_canonZ_refl. reflexivity.
Qed.

Lemma feq_of_int_refl z : small53 z -> feq (float64_of_int64 z) (float64_of_int64 z) = true.
Proof. intro Hz. rewrite feq_SFeqb, (Prim2SF_of_int z Hz). apply SFeqb_canonZ_refl. Qed.

Lemma add_of_int a b :
  small53 a -> small53 b -> small53 (a + b) ->
  PrimFloat.add (float64_of_int64 a) (float64_of_int64 b) = float64_of_int64 (a + b).
Proof.
  intros Ha Hb Hab. apply Prim2SF_inj.
  rewrite add_spec, !Prim2SF_of_int by assumption. apply SFadd_canonZ; assumption.
Qed.

Lemma sub_of_int a b :
  small53 a -> small53 b -> small53 (a - b) ->
  PrimFloat.sub (float64_of_int64 a) (float64_of_int64 b) = float64_of_int64 (a - b).
Proof.
  intros Ha Hb Hab. apply Prim2SF_inj.
  rewrite sub_spec, !Prim2SF_of_int by assumption. apply SFsub_canonZ; assumption.
Qed.

Lemma SFeqb_sym x y : SFeqb x y = true -> SFeqb y x = true.
Proof.
  unfold SFeqb. destruct (SFcompare x y) as [[| |]|] eqn:C; try discriminate.
  intros _. rewrite (SFcompare_Eq_sym _ _ C). reflexivity.
Qed.

Lemma mul_of_int a b :
  small53 a -> small53 b -> small53 (a * b) ->
  feq (float64_of_int64 (a * b)) (PrimFloat.mul (float64_of_int64 a) (float64_of_int64 b))
  = true.
Proof.
  intros Ha Hb Hab.
  rewrite feq_SFeqb, mul_spec, !Prim2SF_of_int by assumption.
  apply SFeqb_sym, SFmul_canonZ; assumption.
Qed.

Lemma div_of_int a b :
  small53 a -> small53 b -> b <> 0 -> Z.rem a b = 0 ->
  feq (float64_of_int64 (Z.quot a b)) (PrimFloat.div (float64_of_int64 a) (float64_of_int64 b))
  = true.
Proof.
  intros Ha Hb Nb Hr.
  assert (Hq : small53 (Z.quot a b)).
  { unfold small53 in *. pose proof (Z.quot_rem' a b) as E. rewrite Hr, Z.add_0_r in E. nia. }
  rewrite feq_SFeqb, div_spec, !Prim2SF_of_int by assumption.
  apply SFeqb_sym, SFdiv_canonZ; assumption.
Qed.

(** Truncating the canonical value of [p] gives [p] back. *)
Lemma canon_magnitude p :
  Z.pos p < 2 ^ 53 ->
  (if 0 <=? dig p - 53
   then Z.pos (Z.to_pos (Z.pos p * 2 ^ (53 - dig p))) * 2 ^ (dig p - 53)
   else Z.pos (Z.to_pos (Z.pos p * 2 ^ (53 - dig p))) / 2 ^ (- (dig p - 53)))
  = Z.pos p.
Proof.
  intro Hp. pose proof (dig_le p 53 ltac:(lia) Hp) as Hd.
  rewrite canon_mantissa by exact Hp.
  destruct (Z.leb_spec 0 (dig p - 53)).
  - replace (dig p) with 53 by lia. cbn. lia.
  - replace (- (dig p - 53)) with (53 - dig p) by lia.
    apply Z.div_mul. apply Z.pow_nonzero; lia.
Qed.

Lemma int64_of_float64_of_int z : small53 z -> int64_of_float64 (float64_of_int64 z) = z.
Proof.
  intro Hz. unfold int64_of_float64, trunc_float64. rewrite (Prim2SF_of_int z Hz).
  unfold small53 in Hz.
  assert (R : in_int64 z = true).
  { unfold in_int64, int64_min, int64_max. apply andb_true_iff; split; apply Z.leb_le; lia. }
  destruct z as [|p|p]; cbn [canonZ canon].
  - exact (eq_refl : (if in_int64 0 then 0 else int64_min) = 0).
  - rewrite (canon_magnitude p) by lia. rewrite R. reflexivity.
  - rewrite (canon_magnitude p) by lia.
    change (- Z.pos p) with (Z.neg p). rewrite R. reflexivity.
Qed.

Lemma wrap64_small z : small53 z -> wrap64 z = z.
Proof.
  unfold small53, wrap64. intro H. rewrite Z.mod_small; lia.
Qed.

(** ** Integer and float arithmetic side by side *)

(** C6, as amended.  For integers [a] and [b] of magnitude below [2 ^ 53],
    [operateInts] and [operateNumbers] on the converted operands return
    results that are equal as floats for [+], [-] and [*] when the exact
    result is below [2 ^ 53] in magnitude too, for [%] when [b] is not zero,
    and for [/] when [b] is not zero and divides [a]. *)
Theorem ints_numbers_agree (op : Token) (a b : Z) :
  small53 a -> small53 b ->
  match T op with
  | TokenPlus => small53 (a + b)
  | TokenMinus => small53 (a - b)
  | TokenStar | TokenMultiply => small53 (a * b)
  | TokenDivide => b <> 0 /\ Z.rem a b = 0
  | TokenModulus => b <> 0
  | _ => False
  end ->
  agree_as_float (operateInts op a b)
    (operateNumbers op (float64_of_int64 a) (float64_of_int64 b)) = true.
Proof.
  intros Ha Hb Hop.
  unfold operateInts, operateNumbers, float_modulus.
  rewrite (of_int_not_NaN a Ha), (of_int_not_NaN b Hb).
  rewrite (int64_of_float64_of_int a Ha), (int64_of_float64_of_int b Hb).
  destruct (T op); try contradiction; cbn [andb orb agree_as_float AsFloat bind].
  - rewrite (wrap64_small _ Hop), (add_of_int a b Ha Hb Hop). apply feq_of_int_refl, Hop.
  - rewrite (wrap64_small _ Hop), (sub_of_int a b Ha Hb Hop). apply feq_of_int_refl, Hop.
  - rewrite (wrap64_small _ Hop). apply mul_of_int; assumption.
  - rewrite (wrap64_small _ Hop). apply mul_of_int; assumption.
  - destruct Hop as [Nb Hr]. apply Z.eqb_neq in Nb as Nb'. rewrite Nb'.
    cbn [agree_as_float AsFloat].
    assert (Hq : small53 (Z.quot a b)).
    { unfold small53 in *. pose proof (Z.quot_rem' a b) as E. rewrite Hr, Z.add_0_r in E. nia. }
    rewrite (wrap64_small _ Hq). apply div_of_int; assumption.
  - apply Z.eqb_neq in Hop as Nb'. rewrite Nb'. cbn [agree_as_float AsFloat bind].
    apply feq_of_int_refl. unfold small53 in *.
    pose proof (Z.rem_bound_abs a b Hop). lia.
Qed.

(** * The properties on concrete rows *)

Import Examples.

(** The WHERE clause [note] on a row whose [note] is NULL keeps the row. *)
Lemma EvalSql_where_gate_witness :
  is_nil_Node (Where only_bob) = false
  /\ Eval (VP := Stock.pkg) (SP := Stock.ascii_strings)
      bob (Where only_bob) = Ret (NilValue, OkTrue)
  /\ EvalSql (VP := Stock.pkg) (SP := Stock.ascii_strings)
      only_bob [] bob = ([], Ret (true, ErrNil)).
Proof.
  split; [reflexivity|]. split; [reflexivity|].
  destruct (EvalSql_where_gate (VP := Stock.pkg) (SP := Stock.ascii_strings)
      only_bob [] bob NilValue OkTrue
              eq_refl eq_refl) as (_ & _ & H & _).
  apply H; reflexivity.
Defined.

(** The WHERE clause [ip] on a row without [ip]: the row is dropped and the
    failure flag of the lookup is returned, where the specification has [(true, nil)]. *)
Lemma EvalSql_where_missing_identity :
  Stock.row_Get [] "ip" = (nil_Value, false)
  /\ EvalSql (VP := Stock.pkg) (SP := Stock.ascii_strings)
      where_ip [] empty_row = ([], Ret (false, OkFalse))
  /\ EvalSql (VP := Stock.pkg) (SP := Stock.ascii_strings)
      where_ip [] empty_row <> ([], Ret (true, ErrNil)).
Proof. split; [reflexivity|]. split; [reflexivity|]. discriminate. Qed.

(** [f BETWEEN lo AND hi] on the numbers [f = 2], [lo = 1], [hi = 3]: the
    value is [Bool(true)] and the flag is [false]. *)
Lemma walkTri_between_witness :
  walkTri (VP := Stock.pkg) (SP := Stock.ascii_strings)
      numbers {| T := TokenBetween; V := "between" |}
    (IdentityNode "f") (IdentityNode "lo") (IdentityNode "hi")
  = Ret (BoolValue true, OkFalse).
Proof.
  destruct (walkTri_between (VP := Stock.pkg) (SP := Stock.ascii_strings)
      numbers (IdentityNode "f") (IdentityNode "lo")
              (IdentityNode "hi") OkTrue OkTrue OkTrue "between" eq_refl eq_refl eq_refl)
    as [_ H].
  destruct (H 2%float 1%float 3%float eq_refl eq_refl eq_refl) as [B _].
  exact B.
Defined.

(** [7 / 2] under [Vm.Execute]. *)
Lemma Execute_int_division_witness :
  Execute (VP := Stock.pkg) (SP := Stock.ascii_strings)
      (BinaryNode {| T := TokenDivide; V := "/" |} (int_lit 7) (int_lit 2))
    [] empty_row
  = ([(SchemaInfoEmpty, IntValue 3)], Ret ErrNil).
Proof.
  destruct (Execute_int_division (VP := Stock.pkg) (SP := Stock.ascii_strings)
      empty_row [] (int_lit 7) (int_lit 2)
              7 2 ErrNil ErrNil "/" eq_refl eq_refl eq_refl eq_refl) as [H _].
  apply H. discriminate.
Defined.

(** [1 / 0] under [Vm.Execute]: the panic escapes. *)
Lemma Execute_one_by_zero_panics :
  Execute (VP := Stock.pkg) (SP := Stock.ascii_strings)
      (BinaryNode (tok TokenDivide) (int_lit 1) (int_lit 0))
    [] empty_row
  = ([], Panic (RuntimeError integer_divide_by_zero))
  /\ panics (snd (Execute (VP := Stock.pkg) (SP := Stock.ascii_strings)
                    (BinaryNode (tok TokenDivide) (int_lit 1) (int_lit 0)) [] empty_row))
     = true.
Proof. split; reflexivity. Qed.

(** [note != note] and [note == note] on a row whose [note] is NULL. *)
Lemma walkBinary_nil_ne_nil_witness :
  walkBinary (VP := Stock.pkg) (SP := Stock.ascii_strings) bob {| T := TokenNE; V := "!=" |}
    (IdentityNode "note") (IdentityNode "note") = Ret (BoolValue true, ErrNil)
  /\ walkBinary (VP := Stock.pkg) (SP := Stock.ascii_strings)
      bob {| T := TokenEqualEqual; V := "!=" |}
       (IdentityNode "note") (IdentityNode "note") = Ret (BoolValue true, ErrNil).
Proof.
  apply (walkBinary_nil_ne_nil (VP := Stock.pkg) (SP := Stock.ascii_strings)
      bob (IdentityNode "note")
           (IdentityNode "note") NilValue NilValue OkTrue OkTrue "!=");
    reflexivity.
Defined.

(** ["abc" LIKE "["]: the pattern is not a valid glob. *)
Lemma operateStrings_like_bad_pattern_witness :
  failed (snd (Stock.glob_match "[" "abc")) = true
  /\ operateStrings (VP := Stock.pkg) {| T := TokenLike; V := "like" |} "abc" "["
     = BoolValue false.
Proof.
  split; [reflexivity|].
  apply (operateStrings_like_bad_pattern (VP := Stock.pkg) "abc" "[" "like" false
           (Err "glob: bad pattern")); reflexivity.
Defined.



(** [AddTableName("Users")] with [TablesToLoad = ["users"]]: the name matches
    up to case and is refused. *)
Lemma AddTableName_allowlist_witness :
  Schema.allowed_ci (SP := Stock.ascii_strings) (Schema.Conf csv_users) "Users" = true
  /\ Schema.AddTableName (SP := Stock.ascii_strings) csv_users "Users" = csv_users
  /\ Schema.Tables (Schema.AddTableName (SP := Stock.ascii_strings) csv_users "Users") = [].
Proof.
  split; [reflexivity|].
  destruct (AddTableName_allowlist (SP := Stock.ascii_strings) csv_users "Users"
              ltac:(discriminate)) as (_ & _ & H).
  assert (E : Schema.AddTableName (SP := Stock.ascii_strings) csv_users "Users" = csv_users)
    by (apply H; [exact to_lower_idempotent | discriminate]).
  split; [exact E | rewrite E; reflexivity].
Defined.

(** [7 / 2]: the integer quotient is 3, the float quotient 3.5; and
    [(2 ^ 53 + 1) + 1], which overflows nothing, is [2 ^ 53 + 2] on integers
    and [2 ^ 53] on floats. *)
Lemma ints_numbers_disagree :
  operateInts (tok TokenDivide) 7 2 = Ret (IntValue 3)
  /\ operateNumbers (tok TokenDivide) (float64_of_int64 7) (float64_of_int64 2)
     = Ret (NumberValue 3.5)
  /\ agree_as_float (operateInts (tok TokenDivide) 7 2)
       (operateNumbers (tok TokenDivide) (float64_of_int64 7) (float64_of_int64 2))
     = false
  /\ agree_as_float (operateInts (tok TokenPlus) (2 ^ 53 + 1) 1)
       (operateNumbers (tok TokenPlus) (float64_of_int64 (2 ^ 53 + 1)) (float64_of_int64 1))
     = false.
Proof. repeat split; vm_compute; reflexivity. Qed.

(** [3 + 4] on both tables. *)
Lemma ints_numbers_agree_witness :
  agree_as_float (operateInts (tok TokenPlus) 3 4)
    (operateNumbers (tok TokenPlus) (float64_of_int64 3) (float64_of_int64 4)) = true.
Proof.
  apply (ints_numbers_agree (tok TokenPlus) 3 4); reflexivity.
Defined.

(** [NaN % 1]: the guard answers NaN, the modulus formula gives 0. *)
Lemma modulus_of_NaN_is_NaN :
  operateNumbers (tok TokenModulus) NaN 1 = Ret (NumberValue NaN)
  /\ float_modulus NaN 1 = Ret 0%float
  /\ operateNumbers (tok TokenModulus) NaN 1
     <> (do r <- float_modulus NaN 1; Ret (NumberValue r)).
Proof.
  split; [reflexivity|]. split; [vm_compute; reflexivity|].
  intro H.
  apply (f_equal (fun o => match o with Ret (NumberValue f) => IsNaN f | _ => false end)) in H.
  vm_compute in H. discriminate.
Qed.

(** ** The end-to-end scenarios of the specification on the row [bob] *)

Section Scenarios.

#[local] Existing Instance Stock.pkg.
#[local] Existing Instance Stock.ascii_strings.

Example scenario_name_equals_bob :
  Eval bob (BinaryNode (tok TokenEqualEqual) (IdentityNode "name") (StringNode "bob"))
  = Ret (BoolValue true, ErrNil).
Proof. reflexivity. Qed.

Example scenario_between :
  Eval bob (TriNode (tok TokenBetween) (IdentityNode "age") (int_lit 10) (int_lit 50))
  = Ret (BoolValue true, OkTrue)
  /\ Eval bob (TriNode (tok TokenBetween) (IdentityNode "age") (int_lit 42) (int_lit 50))
     = Ret (BoolValue false, OkTrue).
Proof. split; reflexivity. Qed.

Example scenario_in_tags :
  Eval bob (MultiArgNode (tok TokenIN) [StringNode "x"; IdentityNode "tags"])
  = Ret (BoolValue true, OkTrue)
  /\ Eval bob (MultiArgNode (tok TokenIN) [StringNode "z"; IdentityNode "tags"])
     = Ret (BoolValue false, OkTrue).
Proof. split; reflexivity. Qed.

Example scenario_exists_missing :
  Eval bob (UnaryNode (tok TokenExists) (IdentityNode "missing_col"))
  = Ret (BoolValue false, ErrNil).
Proof. reflexivity. Qed.

(** A comparison with a missing column fails in [walkBinary]; as a WHERE
    clause it drops the row. *)
Example scenario_missing_col :
  Eval bob (BinaryNode (tok TokenEqualEqual) (IdentityNode "missing_col") (StringNode "bob"))
  = Ret (nil_Value, Err "aerr berr")
  /\ EvalSql {| Columns := [col_name];
                Where := BinaryNode (tok TokenEqualEqual) (IdentityNode "missing_col")
                           (StringNode "bob") |} [] bob
     = ([], Ret (false, Err "aerr berr")).
Proof. split; reflexivity. Qed.

Example scenario_count_age :
  Eval bob (FuncNode "count" CountFunc [IdentityNode "age"]) = Ret (IntValue 1, OkTrue).
Proof. reflexivity. Qed.

Example scenario_sqrt :
  Eval bob (FuncNode "sqrt" SqrtFunc [int_lit 16]) = Ret (NumberValue 4, OkTrue)
  /\ SqrtFunc bob [StringValue "abc"] = Ret (NumberValue NaN, false)
  /\ Eval bob (FuncNode "sqrt" SqrtFunc [StringNode "abc"]) = Ret (EmptyStringValue, OkFalse).
Proof. repeat split; vm_compute; reflexivity. Qed.

(** The modulus of [operateNumbers] works on the truncated operands: it is
    not the floating-point remainder, and a divisor below one in magnitude
    is a division by zero. *)
Example modulus_truncates_operands :
  operateNumbers (tok TokenModulus) 7.5 2.5 = Ret (NumberValue 1)
  /\ operateNumbers (tok TokenModulus) (-7.5) 2 = Ret (NumberValue (-1))
  /\ operateNumbers (tok TokenModulus) 7.5 0.5 = Panic (RuntimeError integer_divide_by_zero).
Proof. repeat split; vm_compute; reflexivity. Qed.

(** Under [EvalSql] nothing recovers the panic of the single [=] on integers. *)
Example EvalSql_where_int_single_equal :
  EvalSql {| Columns := [col_name];
             Where := BinaryNode (tok TokenEqual) (IdentityNode "age") (int_lit 42) |} [] bob
  = ([], Panic (ErrorPanic unknown_operator)).
Proof. reflexivity. Qed.

(** A number strictly inside the range: [walkTri] returns [Bool(true)]
    together with the flag [false], and as a WHERE clause the row is dropped. *)
Example between_numbers_inside :
  let between :=
    TriNode (tok TokenBetween) (IdentityNode "f") (IdentityNode "lo") (IdentityNode "hi") in
  Eval numbers between = Ret (BoolValue true, OkFalse)
  /\ EvalSql {| Columns := []; Where := between |} [] numbers = ([], Ret (false, OkFalse)).
Proof. split; vm_compute; reflexivity. Qed.

(** The same on integers keeps the row. *)
Example between_integers_inside :
  let between :=
    TriNode (tok TokenBetween) (IdentityNode "age") (int_lit 10) (int_lit 50) in
  Eval bob between = Ret (BoolValue true, OkTrue)
  /\ EvalSql {| Columns := []; Where := between |} [] bob = ([], Ret (true, ErrNil)).
Proof. split; reflexivity. Qed.

End Scenarios.

(** * Further properties of the code *)

Section MoreVM.

Context {VP : ValuePkg} {SP : StringsPkg}.

(** ** Integer arithmetic stays in [int64] *)

Lemma wrap64_in_int64 z : in_int64 (wrap64 z) = true.
Proof.
  unfold in_int64, wrap64, int64_min, int64_max.
  pose proof (Z.mod_pos_bound (z + 2 ^ 63) (2 ^ 64) ltac:(lia)).
  apply andb_true_iff; split; apply Z.leb_le; lia.
Qed.

Lemma wrap64_exact z : in_int64 z = true -> wrap64 z = z.
Proof.
  unfold in_int64, wrap64, int64_min, int64_max. intro H.
  apply andb_true_iff in H as [H1 H2]. apply Z.leb_le in H1, H2.
  rewrite Z.mod_small; lia.
Qed.

Lemma wrap64_congruent z : (wrap64 z - z) mod 2 ^ 64 = 0.
Proof.
  unfold wrap64. rewrite (Z.mod_eq (z + 2 ^ 63) (2 ^ 64)) by lia.
  replace (z + 2 ^ 63 - 2 ^ 64 * ((z + 2 ^ 63) / 2 ^ 64) - 2 ^ 63 - z)
    with (- ((z + 2 ^ 63) / 2 ^ 64) * 2 ^ 64) by ring.
  apply Z.mod_mul. lia.
Qed.

(** The mathematical result of an arithmetic operator of [operateInts]. *)
Lemma operateInts_arith_cases (op : Token) (a b r : Z) :
  operateInts op a b = Ret (IntValue r) ->
  (T op = TokenPlus /\ r = wrap64 (a + b))
  \/ ((T op = TokenStar \/ T op = TokenMultiply) /\ r = wrap64 (a * b))
  \/ (T op = TokenMinus /\ r = wrap64 (a - b))
  \/ (T op = TokenDivide /\ b <> 0 /\ r = wrap64 (Z.quot a b))
  \/ (T op = TokenModulus /\ b <> 0 /\ r = Z.rem a b).
Proof.
  unfold operateInts, BoolValueTrue, BoolValueFalse.
  destruct (T op); try discriminate;
    try (match goal with |- Ret (if ?c then _ else _) = _ -> _ => destruct c; discriminate end).
  - intros [= <-]. auto.
  - intros [= <-]. auto 6.
  - intros [= <-]. auto 6.
  - intros [= <-]. auto 6.
  - destruct (Z.eqb_spec b 0); [discriminate|]. intros [= <-]. auto 10.
  - destruct (Z.eqb_spec b 0); [discriminate|]. intros [= <-]. auto 10.
Qed.

(** X1.  On operands in the [int64] range every integer that [operateInts]
    returns is in the range again; it is the exact result whenever that one
    fits, and differs from it by a multiple of [2 ^ 64] otherwise. *)
Theorem operateInts_in_int64 (op : Token) (a b r : Z) :
  in_int64 a = true -> in_int64 b = true ->
  operateInts op a b = Ret (IntValue r) ->
  in_int64 r = true
  /\ exists exact : Z,
       match T op with
       | TokenPlus => exact = a + b
       | TokenMinus => exact = a - b
       | TokenStar | TokenMultiply => exact = a * b
       | TokenDivide => exact = Z.quot a b
       | TokenModulus => exact = Z.rem a b
       | _ => False
       end
       /\ (r - exact) mod 2 ^ 64 = 0
       /\ (in_int64 exact = true -> r = exact).
Proof.
  intros Ha Hb H.
  destruct (operateInts_arith_cases op a b r H)
    as [[E ->] | [[E ->] | [[E ->] | [[E [Nb ->]] | [E [Nb ->]]]]]].
  - split; [apply wrap64_in_int64|]. exists (a + b). rewrite E.
    split; [reflexivity | split; [apply wrap64_congruent | apply wrap64_exact]].
  - split; [apply wrap64_in_int64|]. exists (a * b).
    destruct E as [E | E]; rewrite E;
      (split; [reflexivity | split; [apply wrap64_congruent | apply wrap64_exact]]).
  - split; [apply wrap64_in_int64|]. exists (a - b). rewrite E.
    split; [reflexivity | split; [apply wrap64_congruent | apply wrap64_exact]].
  - split; [apply wrap64_in_int64|]. exists (Z.quot a b). rewrite E.
    split; [reflexivity | split; [apply wrap64_congruent | apply wrap64_exact]].
  - assert (R : in_int64 (Z.rem a b) = true).
    { unfold in_int64, int64_min, int64_max in *.
      apply andb_true_iff in Ha as [Ha1 Ha2]. apply andb_true_iff in Hb as [Hb1 Hb2].
      apply Z.leb_le in Ha1, Ha2, Hb1, Hb2.
      pose proof (Z.rem_bound_abs a b Nb).
      apply andb_true_iff; split; apply Z.leb_le; lia. }
    split; [exact R|]. exists (Z.rem a b). rewrite E.
    split; [reflexivity | split; [rewrite Z.sub_diag; reflexivity | reflexivity]].
Qed.

(** ** NaN operands of [operateNumbers] *)

Lemma SFcompare_refl_not_nan x : x <> S754_nan -> SFcompare x x = Some Eq.
Proof.
  destruct x as [s|s| |s m e]; intro H; try congruence; cbn.
  - reflexivity.
  - destruct s; reflexivity.
  - rewrite Z.compare_refl, Pos.compare_cont_refl. destruct s; reflexivity.
Qed.

Lemma IsNaN_Prim2SF f : IsNaN f = true -> Prim2SF f = S754_nan.
Proof.
  unfold IsNaN. rewrite FloatAxioms.eqb_spec. unfold SFeqb. intro H.
  destruct (Prim2SF f) as [s|s| |s m e] eqn:E; try reflexivity;
    rewrite SFcompare_refl_not_nan in H by discriminate; discriminate.
Qed.

Lemma SFcompare_nan_l y : SFcompare S754_nan y = None.
Proof. reflexivity. Qed.

Lemma SFcompare_nan_r x : SFcompare x S754_nan = None.
Proof. destruct x; reflexivity. Qed.

Lemma NaN_compares a b :
  IsNaN a = true \/ IsNaN b = true ->
  feq a b = false /\ flt a b = false /\ fle a b = false.
Proof.
  unfold feq, flt, fle.
  rewrite FloatAxioms.eqb_spec, FloatAxioms.ltb_spec, FloatAxioms.leb_spec.
  unfold SFeqb, SFltb, SFleb.
  intros [H | H]; apply IsNaN_Prim2SF in H; rewrite H.
  - rewrite SFcompare_nan_l. auto.
  - rewrite SFcompare_nan_r. auto.
Qed.

(** X2.  With a NaN on either side, every arithmetic operator of [operateNumbers]
    answers NaN, the comparisons [==], [=], [<], [<=], [>], [>=] answer
    [false], [!=] answers [true], and [or] answers [true], NaN being different
    from zero. *)
Theorem operateNumbers_NaN (op : Token) (a b : float) :
  IsNaN a = true \/ IsNaN b = true ->
  match T op with
  | TokenPlus | TokenMinus | TokenStar | TokenMultiply | TokenDivide | TokenModulus =>
      operateNumbers op a b = Ret (NumberValue NaN)
  | TokenEqualEqual | TokenEqual | TokenLT | TokenLE | TokenGT | TokenGE =>
      operateNumbers op a b = Ret (BoolValue false)
  | TokenNE | TokenLogicOr | TokenOr => operateNumbers op a b = Ret (BoolValue true)
  | _ => True
  end.
Proof.
  intro H.
  assert (N : IsNaN a || IsNaN b = true) by (destruct H as [-> | ->]; [reflexivity | apply orb_true_r]).
  destruct (NaN_compares a b H) as (E1 & E2 & E3).
  destruct (NaN_compares b a (proj1 (or_comm _ _) H)) as (_ & E4 & E5).
  assert (Z0 : fne a PrimFloat.zero || fne b PrimFloat.zero = true).
  { unfold fne. destruct H as [H | H].
    - destruct (NaN_compares a PrimFloat.zero (or_introl H)) as (E & _).
      unfold feq in E. rewrite E. reflexivity.
    - destruct (NaN_compares b PrimFloat.zero (or_introl H)) as (E & _).
      unfold feq in E. rewrite E. apply orb_true_r. }
  unfold operateNumbers, BoolValueTrue, BoolValueFalse.
  unfold fgt, fge, flt, fle, feq, fne in *.
  destruct (T op); cbn [andb negb];
    rewrite ?N, ?E1, ?E2, ?E3, ?E4, ?E5, ?Z0; try reflexivity; exact I.
Qed.

(** ** Binary expressions evaluate both operands *)

(** X3.  [walkBinary] evaluates the right operand whatever the operator and the
    left value are: a panic of the right operand is the panic of the
    expression, and a failed operand on either side makes the expression
    fail with an error, also for [and] and [or] with a left operand that
    would decide them. *)
Theorem walkBinary_is_eager ctx op a0 a1 l :
  Eval ctx a0 = Ret l ->
  (forall p, Eval ctx a1 = Panic p -> walkBinary ctx op a0 a1 = Panic p)
  /\ (forall r, Eval ctx a1 = Ret r -> failed (snd l) = true \/ failed (snd r) = true ->
      walkBinary ctx op a0 a1 = Ret (nil_Value, Err "aerr berr")).
Proof.
  intro Hl. unfold walkBinary. rewrite Eval_BinaryNode, Hl. cbn [bind]. split.
  - intros p Hp. rewrite Hp. reflexivity.
  - intros r Hr F. rewrite Hr. cbn [bind]. destruct l as [lv le], r as [rv re].
    cbn [snd] in F. unfold walkBinary_operands.
    replace (failed le || failed re) with true; [reflexivity|].
    symmetry. apply orb_true_iff. exact F.
Qed.

(** ** Unary operators *)

Lemma walkUnary_evaluated ctx op a r :
  Eval ctx a = Ret r -> walkUnary ctx op a = walkUnary_operand op r.
Proof. intro H. unfold walkUnary. cbn [Eval]. rewrite H. reflexivity. Qed.

(** X4.  [EXISTS x] never fails once [x] has been evaluated: it answers [true]
    exactly when the evaluation of [x] did not fail and gave a value that is
    not nil. *)
Theorem walkUnary_exists ctx a v e s :
  Eval ctx a = Ret (v, e) ->
  exists flag,
    walkUnary ctx {| T := TokenExists; V := s |} a
    = Ret (BoolValue (negb (failed e) && negb (is_nil v)), flag)
    /\ failed flag = false.
Proof.
  intro H. rewrite (walkUnary_evaluated _ _ _ _ H). unfold walkUnary_operand; cbn [T].
  destruct (failed e).
  - exists ErrNil. split; reflexivity.
  - exists OkTrue. destruct v; split; reflexivity.
Qed.

(** X5.  [!x] on a Bool gives the negation, and [!!x] the value of [x] again; on
    any other value that was evaluated without failure [!x] panics with
    [ErrUnknownNodeType], which [Vm.Execute] returns as its error without
    writing anything. *)
Theorem walkUnary_negate ctx a v e s :
  Eval ctx a = Ret (v, e) -> failed e = false ->
  match v with
  | BoolValue b =>
      walkUnary ctx {| T := TokenNegate; V := s |} a = Ret (BoolValue (negb b), OkTrue)
      /\ walkUnary ctx {| T := TokenNegate; V := s |}
           (UnaryNode {| T := TokenNegate; V := s |} a) = Ret (BoolValue b, OkTrue)
  | _ =>
      walkUnary ctx {| T := TokenNegate; V := s |} a = Panic (ErrorPanic ErrUnknownNodeType)
      /\ forall w,
           Execute (UnaryNode {| T := TokenNegate; V := s |} a) w ctx
           = (w, Ret (Err ErrUnknownNodeType))
  end.
Proof.
  intros H F.
  assert (E1 : walkUnary ctx {| T := TokenNegate; V := s |} a
               = walkUnary_operand {| T := TokenNegate; V := s |} (v, e))
    by (apply walkUnary_evaluated, H).
  unfold walkUnary_operand in E1; cbn [T] in E1. rewrite F in E1.
  destruct v;
    try (split; [exact E1 | intro w; unfold Execute; unfold walkUnary in E1; rewrite E1; reflexivity]).
  split; [exact E1|].
  rewrite (walkUnary_evaluated _ _ _ _ E1). unfold walkUnary_operand; cbn [T failed].
  rewrite negb_involutive. reflexivity.
Qed.

Lemma opp_involutive f : PrimFloat.opp (PrimFloat.opp f) = f.
Proof.
  apply Prim2SF_inj. rewrite !opp_spec.
  destruct (Prim2SF f) as [s|s| |s m e]; cbn; rewrite ?negb_involutive; reflexivity.
Qed.

(** X6.  [-x] on an integer or a number gives a Number, also for an integer
    operand, and [-(-x)] gives [x] converted to a Number; on any other value
    [-x] fails with the nil value and does not panic. *)
Theorem walkUnary_minus ctx a v e s :
  Eval ctx a = Ret (v, e) -> failed e = false ->
  match AsFloat v with
  | Some f =>
      walkUnary ctx {| T := TokenMinus; V := s |} a
        = Ret (NumberValue (PrimFloat.opp f), OkTrue)
      /\ walkUnary ctx {| T := TokenMinus; V := s |}
           (UnaryNode {| T := TokenMinus; V := s |} a) = Ret (NumberValue f, OkTrue)
  | None => walkUnary ctx {| T := TokenMinus; V := s |} a = Ret (NilValue, OkFalse)
  end.
Proof.
  intros H F.
  assert (E1 : walkUnary ctx {| T := TokenMinus; V := s |} a
               = walkUnary_operand {| T := TokenMinus; V := s |} (v, e))
    by (apply walkUnary_evaluated, H).
  unfold walkUnary_operand in E1; cbn [T] in E1. rewrite F in E1.
  destruct v; cbn [AsFloat]; try exact E1.
  - split; [exact E1|].
    rewrite (walkUnary_evaluated _ _ _ _ E1). unfold walkUnary_operand; cbn [T failed].
    rewrite opp_involutive. reflexivity.
  - split; [exact E1|].
    rewrite (walkUnary_evaluated _ _ _ _ E1). unfold walkUnary_operand; cbn [T failed].
    rewrite opp_involutive. reflexivity.
Qed.
(** ** IN *)

(** X7.  [a IN (v1, ..., vn)]: once [a] has been evaluated without failure and the
    items evaluate, the answer is [true] exactly when some item evaluated
    without failure and [value.Equal] reports it equal to [a] without error,
    and the flag is [true]; an empty list gives [false]. *)
Theorem walkMulti_in_list ctx a0 rest a ea rs s :
  Eval ctx a0 = Ret (a, ea) -> failed ea = false ->
  in_list_form rest = true ->
  Forall2 (fun n r => Eval ctx n = Ret r) rest rs ->
  walkMulti ctx {| T := TokenIN; V := s |} (a0 :: rest)
  = Ret (BoolValue (existsb (in_item_matches a) rs), OkTrue).
Proof.
  intros Ha Fa Hform Hrs. unfold walkMulti. cbn [Eval]. rewrite Ha. cbn [bind T]. rewrite Fa.
  match goal with
  | |- context [match rest with | [] => ?f _ | _ => _ end] => set (scan := f)
  end.
  assert (S : scan rest = Ret (BoolValue (existsb (in_item_matches a) rs), OkTrue)).
  { clear Hform. induction Hrs as [|n r rest rs Hn _ IH]; [reflexivity|].
    cbn [scan existsb]. rewrite Hn. cbn [bind]. destruct r as [v ok].
    unfold in_item_matches at 1.
    destruct (negb (failed ok) && (let '(eq, err) := Equal a v in eq && negb (failed err)));
      [reflexivity|]. exact IH. }
  destruct rest as [|n [|n' rest']]; [exact S| |destruct n; exact S].
  destruct n; try exact S; discriminate Hform.
Qed.

Lemma in_slice_existsb a vals :
  in_slice a vals = (BoolValue (existsb (slice_item_matches a) vals), OkTrue).
Proof.
  induction vals as [|val vals IH]; [reflexivity|].
  cbn [in_slice existsb]. unfold slice_item_matches at 1.
  destruct (Equal val a) as [matched err]. destruct (failed err); cbn [negb andb orb].
  - exact IH.
  - destruct matched; [reflexivity | exact IH].
Qed.

(** X8.  [a IN ident]: an identity missing from the row gives [false] without
    failure; an identity bound to something that is not a slice gives [false]
    with the failure flag; a slice is scanned with [value.Equal(element, a)],
    elements whose comparison reports an error being passed over. *)
Theorem walkMulti_in_identity c a0 text a ea s :
  Eval (Some c) a0 = Ret (a, ea) -> failed ea = false ->
  IsBooleanIdentity text = false ->
  walkMulti (Some c) {| T := TokenIN; V := s |} [a0; IdentityNode text]
  = match Get c text with
    | (_, false) => Ret (BoolValue false, OkTrue)
    | (mval, true) =>
        match as_Slice mval with
        | None => Ret (BoolValue false, OkFalse)
        | Some vals => Ret (BoolValue (existsb (slice_item_matches a) vals), OkTrue)
        end
    end.
Proof.
  intros Ha Fa Hb. unfold walkMulti. cbn [Eval]. rewrite Ha. cbn [bind T]. rewrite Fa.
  unfold walkIdentity. rewrite Hb. destruct (Get c text) as [mval [|]]; cbn [errflag_of_ok failed].
  - destruct (as_Slice mval); [rewrite in_slice_existsb|]; reflexivity.
  - reflexivity.
Qed.

(** ** [Evaluator] against [Eval] *)

(** X9.  The closure that [Evaluator] builds for a node computes what [Eval]
    computes on that node, for every node but the nil node: there [Eval]
    answers [(nil, nil)] and the closure answers an error. *)
Theorem Evaluator_Eval (arg : Node) (ctx : EvalContext) :
  (arg <> nil_Node -> Evaluator arg ctx = Eval ctx arg)
  /\ (arg = nil_Node ->
      Evaluator arg ctx = Ret (nil_Value, Err "Unknown Node Type")
      /\ Eval ctx arg = Ret (nil_Value, ErrNil)).
Proof.
  split.
  - intro H. destruct arg; try reflexivity. congruence.
  - intros ->. split; reflexivity.
Qed.

(** ** Closed expressions *)

Lemma Node_nested_ind (P : Node -> Prop) :
  P nil_Node ->
  (forall i n f t, P (NumberNode i n f t)) ->
  (forall t, P (StringNode t)) ->
  (forall t, P (IdentityNode t)) ->
  (forall op a, P a -> P (UnaryNode op a)) ->
  (forall op a0 a1, P a0 -> P a1 -> P (BinaryNode op a0 a1)) ->
  (forall op a0 a1 a2, P a0 -> P a1 -> P a2 -> P (TriNode op a0 a1 a2)) ->
  (forall op args, Forall P args -> P (MultiArgNode op args)) ->
  (forall name f args, Forall P args -> P (FuncNode name f args)) ->
  (forall v, P (ValueNode v)) ->
  forall n, P n.
Proof.
  intros Hnil Hnum Hstr Hid Hun Hbin Htri Hmul Hfun Hval.
  fix IH 1. intro n.
  destruct n as [|i z f t|t|t|op a|op a0 a1|op a0 a1 a2|op args|name f args|v].
  - exact Hnil.
  - apply Hnum.
  - apply Hstr.
  - apply Hid.
  - apply Hun, IH.
  - apply Hbin; apply IH.
  - apply Htri; apply IH.
  - apply Hmul.
    exact ((fix go (l : list Node) : Forall P l :=
              match l with
              | [] => @List.Forall_nil _ P
              | x :: l0 => @List.Forall_cons _ P x l0 (IH x) (go l0)
              end) args).
  - apply Hfun.
    exact ((fix go (l : list Node) : Forall P l :=
              match l with
              | [] => @List.Forall_nil _ P
              | x :: l0 => @List.Forall_cons _ P x l0 (IH x) (go l0)
              end) args).
  - apply Hval.
Qed.

(** X10.  An expression without identities and function calls evaluates to the
    same result in every context, the nil context included: its value can be
    computed once, before any row is seen. *)
Theorem Eval_closed (n : Node) :
  closed n = true -> forall ctx1 ctx2, Eval ctx1 n = Eval ctx2 n.
Proof.
  induction n as [|i z f t|t|t|op a IHa|op a0 a1 IH0 IH1|op a0 a1 a2 IH0 IH1 IH2
                 |op args IH|name f args _|v] using Node_nested_ind;
    intros Hc ctx1 ctx2; cbn [closed] in Hc; try discriminate Hc; try reflexivity.
  - cbn [Eval]. rewrite (IHa Hc ctx1 ctx2). reflexivity.
  - apply andb_true_iff in Hc as [H0 H1].
    cbn [Eval]. rewrite (IH0 H0 ctx1 ctx2), (IH1 H1 ctx1 ctx2). reflexivity.
  - apply andb_true_iff in Hc as [H01 H2]. apply andb_true_iff in H01 as [H0 H1].
    cbn [Eval]. rewrite (IH0 H0 ctx1 ctx2), (IH1 H1 ctx1 ctx2), (IH2 H2 ctx1 ctx2).
    reflexivity.
  - destruct args as [|a0 rest]; [reflexivity|].
    cbn [forallb] in Hc. apply andb_true_iff in Hc as [H0 Hrest].
    inversion IH as [|? ? IH0 IHrest]; subst.
    cbn [Eval]. rewrite (IH0 H0 ctx1 ctx2).
    destruct (Eval ctx2 a0) as [[a aok]|p]; [|reflexivity]. cbn [bind].
    destruct (failed aok); [reflexivity|].
    destruct (T op); try reflexivity.
    match goal with
    | |- match rest with | [] => ?f1 _ | _ => _ end
         = match rest with | [] => ?f2 _ | _ => _ end =>
        set (scan1 := f1); set (scan2 := f2)
    end.
    assert (S : scan1 rest = scan2 rest).
    { clear H0 IH0 IH. induction IHrest as [|x l Hx _ IHl]; [reflexivity|].
      cbn [forallb] in Hrest. apply andb_true_iff in Hrest as [Hx' Hl'].
      cbn [scan1 scan2]. rewrite (Hx Hx' ctx1 ctx2).
      destruct (Eval ctx2 x) as [[v ok]|p]; [|reflexivity]. cbn [bind].
      destruct (negb (failed ok) && (let '(eq, err) := Equal a v in eq && negb (failed err)));
        [reflexivity|]. apply IHl, Hl'. }
    destruct rest as [|x [|y rest']]; [exact S| |destruct x; exact S].
    destruct x; try exact S; try reflexivity.
    cbn [forallb closed andb] in Hrest. discriminate Hrest.
Qed.

(** ** Function calls *)

Lemma Call_result f ctx vs v e :
  Call f ctx vs = Ret (v, e) ->
  e = OkTrue \/ (v = EmptyStringValue /\ e = OkFalse).
Proof.
  unfold Call. destruct (existsb _ vs); [discriminate|].
  destruct (f ctx vs) as [[v' ok]|p]; [|discriminate]. cbn [bind].
  destruct ok; cbn [negb]; intros [= <- <-]; auto.
Qed.

(** X11.  What [walkFunc] returns is either flagged [true], or it is the empty
    string flagged [false]: the value that a function hands back next to
    [ok = false] is dropped, and no error is ever returned. *)
Theorem walkFunc_result ctx name f args v e :
  walkFunc ctx name f args = Ret (v, e) ->
  e = OkTrue \/ (v = EmptyStringValue /\ e = OkFalse).
Proof.
  unfold walkFunc. cbn [Eval].
  match goal with |- bind ?c _ = _ -> _ => destruct c as [vs|p] end; [|discriminate].
  cbn [bind]. apply Call_result.
Qed.

(** X12.  Through the VM [count] gives [Int(1)] or fails with the empty string:
    the [Int(0)] that [CountFunc] returns for a nil or error argument is
    never seen. *)
Theorem walkFunc_count ctx name args v e :
  walkFunc ctx name CountFunc args = Ret (v, e) ->
  (v = IntValue 1 /\ e = OkTrue) \/ (v = EmptyStringValue /\ e = OkFalse).
Proof.
  unfold walkFunc. cbn [Eval].
  match goal with |- bind ?c _ = _ -> _ => destruct c as [vs|p] end; [|discriminate].
  cbn [bind]. unfold Call. destruct (existsb _ vs); [discriminate|].
  unfold CountFunc, wrong_arity. destruct vs as [|val [|? ?]]; try discriminate.
  destruct (Value_Err val || Value_Nil val); cbn [bind negb]; intros [= <- <-]; auto.
Qed.

(** X13.  An argument for which the type switch of [walkFunc] has no case (a
    BETWEEN or IN expression, the nil node) makes the call panic with an
    ordinary error, before the function is called, when the arguments in
    front of it are literals. *)
Theorem walkFunc_unknown_arg ctx name f pre bad post :
  forallb literal_arg pre = true -> unknown_func_arg bad = true ->
  walkFunc ctx name f (pre ++ bad :: post)
  = Panic (ErrorPanic "expr: unknown func arg type").
Proof.
  intros Hpre Hbad. unfold walkFunc. cbn [Eval].
  match goal with |- bind (?g _) _ = _ => set (funcArgs := g) end.
  assert (A : funcArgs (pre ++ bad :: post)%list = Panic (ErrorPanic "expr: unknown func arg type")).
  { induction pre as [|x pre IH].
    - cbn [app funcArgs]. destruct bad; try discriminate Hbad; reflexivity.
    - cbn [forallb] in Hpre. apply andb_true_iff in Hpre as [Hx Hpre].
      cbn [app funcArgs].
      destruct x; try discriminate Hx; cbn [bind]; rewrite (IH Hpre); reflexivity. }
  rewrite A. reflexivity.
Qed.

(** ** [Vm.Execute] *)

(** X14.  [Vm.Execute] either writes exactly one value and returns nil, or writes
    nothing and returns a non-nil error or lets a panic through; the panic
    that gets through is never one that carries an ordinary error. *)
Theorem Execute_outcomes root w ctx :
  (exists v, Execute root w ctx = (Put w SchemaInfoEmpty v, Ret ErrNil))
  \/ (exists e, Execute root w ctx = (w, Ret e) /\ failed e = true)
  \/ (exists p, Execute root w ctx = (w, Panic p) /\ forall msg, p <> ErrorPanic msg).
Proof.
  unfold Execute. destruct (Eval ctx root) as [[v e]|p].
  - destruct (failed e) eqn:F.
    + right; left. exists e. auto.
    + destruct v; try (left; eexists; reflexivity).
      right; left. eexists; split; reflexivity.
  - destruct p as [msg|msg|msg]; cbn [errRecover].
    + right; right. eexists; split; [reflexivity | discriminate].
    + right; left. eexists; split; reflexivity.
    + right; right. eexists; split; [reflexivity | discriminate].
Qed.

(** ** [EvalSql]: what is written *)

(** The [Put] calls of the projection loop and its result do not depend on
    the calls made before. *)
Lemma evalColumns_frame ctx cols :
  forall w,
    evalColumns ctx cols w
    = ((w ++ fst (evalColumns ctx cols []))%list, snd (evalColumns ctx cols [])).
Proof.
  induction cols as [|col rest IH]; intro w.
  - cbn [evalColumns fst snd]. rewrite app_nil_r. reflexivity.
  - cbn [evalColumns].
    destruct (if is_nil_Node (Guard col) then Ret false
              else do r <- Eval ctx (Guard col); Ret (guardSkips r)) as [[|]|p].
    + apply IH.
    + destruct (Eval ctx (Expr col)) as [[v e]|p].
      * destruct (failed e).
        -- cbn [fst snd]. rewrite app_nil_r. reflexivity.
        -- rewrite (IH (Put w (ColumnInfo col) v)), (IH (Put [] (ColumnInfo col) v)).
           cbn [fst snd]. unfold Put. rewrite <- app_assoc. reflexivity.
      * cbn [fst snd]. rewrite app_nil_r. reflexivity.
    + cbn [fst snd]. rewrite app_nil_r. reflexivity.
Qed.

Lemma evalColumns_sublist ctx cols :
  sublist (map fst (fst (evalColumns ctx cols []))) (map ColumnInfo cols).
Proof.
  induction cols as [|col rest IH].
  - cbn. constructor.
  - cbn [evalColumns map].
    destruct (if is_nil_Node (Guard col) then Ret false
              else do r <- Eval ctx (Guard col); Ret (guardSkips r)) as [[|]|p].
    + apply sublist_cons, IH.
    + destruct (Eval ctx (Expr col)) as [[v e]|p].
      * destruct (failed e).
        -- cbn. apply sublist_nil_l.
        -- rewrite evalColumns_frame. cbn [fst Put app map].
           apply sublist_skip, IH.
      * cbn. apply sublist_nil_l.
    + cbn. apply sublist_nil_l.
Qed.

(** X16.  Every [Put] of [EvalSql] is for a column of the statement, each column
    is written at most once per occurrence, and the writes follow the order
    of the columns: the columns written form a subsequence of
    [sel.Columns]. *)
Theorem EvalSql_writes_in_order sel ctx :
  sublist (map fst (fst (EvalSql sel [] ctx))) (map ColumnInfo (Columns sel))
  /\ (length (fst (EvalSql sel [] ctx)) <= length (Columns sel))%nat.
Proof.
  assert (S : sublist (map fst (fst (EvalSql sel [] ctx))) (map ColumnInfo (Columns sel))).
  { unfold EvalSql. destruct (is_nil_Node (Where sel)).
    - apply evalColumns_sublist.
    - destruct (Eval ctx (Where sel)) as [r|p].
      + destruct (whereGate r) as [res|].
        * cbn. apply sublist_nil_l.
        * apply evalColumns_sublist.
      + cbn. apply sublist_nil_l. }
  split; [exact S|].
  apply sublist_length in S. rewrite !length_map in S. exact S.
Qed.

Lemma evalColumns_app_projects ctx cs1 puts :
  projects ctx cs1 puts ->
  forall rest w, evalColumns ctx (cs1 ++ rest) w = evalColumns ctx rest (w ++ puts)%list.
Proof.
  induction 1 as [|col cs puts Hs _ IH|col cs puts v e Hg He Hf _ IH]; intros rest w.
  - cbn [app]. rewrite app_nil_r. reflexivity.
  - cbn [app]. rewrite (evalColumns_skip _ _ _ _ Hs). apply IH.
  - cbn [app]. rewrite (evalColumns_keep _ _ _ _ _ _ Hg He Hf), IH. unfold Put.
    rewrite <- app_assoc. reflexivity.
Qed.

(** X17.  When the expression of a column fails, [EvalSql] stops with
    [(false, err)]: the columns behind it are not evaluated, and the values
    of the columns in front of it stay written.  A panic of the expression
    leaves the same writes behind. *)
Theorem EvalSql_column_failure ctx w wh cs1 c cs2 puts :
  where_passes ctx wh -> projects ctx cs1 puts -> guard_passes ctx c ->
  (forall v e, Eval ctx (Expr c) = Ret (v, e) -> failed e = true ->
     EvalSql {| Columns := cs1 ++ c :: cs2; Where := wh |} w ctx
     = ((w ++ puts)%list, Ret (false, e)))
  /\ (forall p, Eval ctx (Expr c) = Panic p ->
        EvalSql {| Columns := cs1 ++ c :: cs2; Where := wh |} w ctx
        = ((w ++ puts)%list, Panic p)).
Proof.
  intros Hw Hp Hg.
  rewrite (EvalSql_where_passes _ _ _ _ Hw), (evalColumns_app_projects _ _ _ Hp).
  cbn [evalColumns].
  assert (G : (if is_nil_Node (Guard c) then Ret false
               else do r <- Eval ctx (Guard c); Ret (guardSkips r)) = Ret false).
  { destruct Hg as [Hn | (r & Hn & Hr & Hs)]; rewrite Hn; [reflexivity|].
    rewrite Hr. cbn [bind]. rewrite Hs. reflexivity. }
  rewrite G. split.
  - intros v e He Hf. rewrite He, Hf. reflexivity.
  - intros p He. rewrite He. reflexivity.
Qed.

(** X18.  A guard whose evaluation fails takes its column out of the projection
    just as a guard that is false does: the row is not rejected and the
    error is not returned. *)
Theorem EvalSql_guard_failure ctx w wh cs1 c cs2 g e :
  is_nil_Node (Guard c) = false ->
  Eval ctx (Guard c) = Ret (g, e) -> failed e = true ->
  EvalSql {| Columns := cs1 ++ c :: cs2; Where := wh |} w ctx
  = EvalSql {| Columns := cs1 ++ cs2; Where := wh |} w ctx.
Proof.
  intros Hn He Hf.
  assert (Hs : guard_skips ctx c).
  { exists (g, e). repeat split; try assumption. unfold guardSkips. rewrite Hf. reflexivity. }
  unfold EvalSql; cbn [Where Columns].
  rewrite (evalColumns_remove_skipped ctx c cs1 cs2 Hs w). reflexivity.
Qed.

End MoreVM.

(** ** Table names of a schema *)

Section TableNames.

Context {SP : StringsPkg}.

Import Schema.

Lemma ascii_compare_eq a b : Ascii.compare a b = Eq <-> a = b.
Proof.
  split; [apply Ascii.compare_eq_iff|]. intros ->.
  unfold Ascii.compare. apply N.compare_refl.
Qed.

Lemma ascii_compare_lt_trans a b c :
  Ascii.compare a b = Lt -> Ascii.compare b c = Lt -> Ascii.compare a c = Lt.
Proof. unfold Ascii.compare. rewrite !N.compare_lt_iff. lia. Qed.

Lemma string_compare_lt_trans a :
  forall b c, String.compare a b = Lt -> String.compare b c = Lt -> String.compare a c = Lt.
Proof.
  induction a as [|x a IH]; intros [|y b] [|z c]; cbn; try discriminate; try reflexivity.
  destruct (Ascii.compare x y) eqn:Exy; try discriminate;
    destruct (Ascii.compare y z) eqn:Eyz; try discriminate; intros H1 H2.
  - apply ascii_compare_eq in Exy, Eyz. subst.
    rewrite (proj2 (ascii_compare_eq z z) eq_refl). eapply IH; eassumption.
  - apply ascii_compare_eq in Exy. subst. rewrite Eyz. reflexivity.
  - apply ascii_compare_eq in Eyz. subst. rewrite Exy. reflexivity.
  - rewrite (ascii_compare_lt_trans _ _ _ Exy Eyz). reflexivity.
Qed.

Lemma string_compare_refl a : String.compare a a = Eq.
Proof.
  induction a as [|x a IH]; [reflexivity|]. cbn.
  rewrite (proj2 (ascii_compare_eq x x) eq_refl). exact IH.
Qed.

Lemma leb_str_refl a : leb_str a a.
Proof. unfold leb_str, String.leb. rewrite string_compare_refl. reflexivity. Qed.

Lemma leb_str_trans a b c : leb_str a b -> leb_str b c -> leb_str a c.
Proof.
  unfold leb_str, String.leb.
  destruct (String.compare a b) eqn:Eab; try discriminate;
    destruct (String.compare b c) eqn:Ebc; try discriminate; intros _ _.
  - apply String.compare_eq_iff in Eab, Ebc. subst. rewrite string_compare_refl. reflexivity.
  - apply String.compare_eq_iff in Eab. subst. rewrite Ebc. reflexivity.
  - apply String.compare_eq_iff in Ebc. subst. rewrite Eab. reflexivity.
  - rewrite (string_compare_lt_trans _ _ _ Eab Ebc). reflexivity.
Qed.

Lemma leb_str_total a b : leb_str a b \/ leb_str b a.
Proof. apply String.leb_total. Qed.

Lemma insert_sorted_perm x l : Permutation (x :: l) (insert_sorted x l).
Proof.
  induction l as [|y l IH]; cbn [insert_sorted]; [reflexivity|].
  destruct (String.leb x y); [reflexivity|].
  rewrite perm_swap. apply perm_skip, IH.
Qed.

Lemma sort_Strings_perm l : Permutation l (sort_Strings l).
Proof.
  unfold sort_Strings. induction l as [|x l IH]; [reflexivity|].
  cbn [fold_right]. rewrite <- insert_sorted_perm. apply perm_skip, IH.
Qed.

Lemma insert_sorted_ascending x l : ascending l -> ascending (insert_sorted x l).
Proof.
  induction l as [|y l IH]; cbn [insert_sorted ascending].
  - intros _. split; [constructor | exact I].
  - intros [Hy Hl]. destruct (String.leb x y) eqn:E; cbn [ascending].
    + split; [|split; assumption].
      constructor; [exact E|].
      eapply List.Forall_impl; [|exact Hy]. intros z Hz. eapply leb_str_trans; eassumption.
    + split; [|exact (IH Hl)].
      assert (Hyx : leb_str y x).
      { destruct (leb_str_total x y) as [H | H]; [unfold leb_str in H; congruence | exact H]. }
      rewrite List.Forall_forall in *. intros z Hz.
      apply (Permutation_in _ (Permutation_sym (insert_sorted_perm x l))) in Hz.
      destruct Hz as [<- | Hz]; [exact Hyx | apply Hy, Hz].
Qed.

Lemma sort_Strings_ascending l : ascending (sort_Strings l).
Proof.
  unfold sort_Strings. induction l as [|x l IH]; cbn [fold_right].
  - exact I.
  - apply insert_sorted_ascending, IH.
Qed.

Lemma ascending_unique l1 :
  forall l2, ascending l1 -> ascending l2 -> Permutation l1 l2 -> l1 = l2.
Proof.
  induction l1 as [|x l1 IH]; intros l2 H1 H2 P.
  - apply Permutation_nil in P. now subst.
  - destruct l2 as [|y l2]; [apply Permutation_sym, Permutation_nil in P; discriminate|].
    destruct H1 as [F1 S1]. destruct H2 as [F2 S2].
    rewrite List.Forall_forall in F1, F2.
    assert (E : x = y).
    { assert (Hx : In x (y :: l2)) by (eapply Permutation_in; [exact P | left; reflexivity]).
      assert (Hy : In y (x :: l1))
        by (eapply Permutation_in; [exact (Permutation_sym P) | left; reflexivity]).
      destruct Hx as [-> | Hx]; [reflexivity|].
      destruct Hy as [-> | Hy]; [reflexivity|].
      apply String.leb_antisym; [apply F1, Hy | apply F2, Hx]. }
    subst y. f_equal. apply IH; try assumption.
    eapply Permutation_cons_inv. exact P.
Qed.

Lemma found_in_iff name names : found_in name names = true <-> In name names.
Proof.
  unfold found_in. rewrite existsb_exists. split.
  - intros (x & Hx & E). apply String.eqb_eq in E. now subst.
  - intros H. exists name. split; [exact H | apply String.eqb_refl].
Qed.

Lemma In_added name names n :
  In n (sort_Strings (names ++ [name])) <-> n = name \/ In n names.
Proof.
  split.
  - intros H. apply (Permutation_in _ (Permutation_sym (sort_Strings_perm _))) in H.
    apply in_app_or in H. destruct H as [H | [H | []]]; [right; exact H | left; now subst].
  - intros H. apply (Permutation_in _ (sort_Strings_perm _)).
    apply in_or_app. destruct H as [-> | H]; [right; left; reflexivity | left; exact H].
Qed.

Lemma NoDup_added name names :
  List.NoDup names -> ~ In name names -> List.NoDup (sort_Strings (names ++ [name])).
Proof.
  intros N H. eapply Permutation_NoDup; [apply sort_Strings_perm|].
  eapply Permutation_NoDup; [apply Permutation_cons_append|].
  constructor; assumption.
Qed.

Lemma Schema_AddTableName_names m t ss :
  Schema_tableNames (Schema_AddTableName m t ss) =
    if found_in t (Schema_tableNames m) then Schema_tableNames m
    else sort_Strings (Schema_tableNames m ++ [t]).
Proof.
  unfold Schema_AddTableName. destruct (found_in t (Schema_tableNames m)); [reflexivity|].
  destruct (Schema_tableMap m !! t); reflexivity.
Qed.

(** A table name is listed after [Schema.AddTableName] exactly when it is the
    registered name or was listed before. *)
Lemma Schema_AddTableName_In m t ss n :
  In n (Schema_tableNames (Schema_AddTableName m t ss)) <->
  n = t \/ In n (Schema_tableNames m).
Proof.
  rewrite Schema_AddTableName_names.
  destruct (found_in t (Schema_tableNames m)) eqn:F.
  - apply found_in_iff in F. split; [now right | intros [-> | H]; assumption].
  - apply In_added.
Qed.

(** X19.  [Schema.AddTableName] registers a name once: a second registration of
    the same name, by whichever source, leaves the schema as the first one
    made it. *)
Theorem Schema_AddTableName_first_wins (m : Schema) (t ss ss' : string) :
  Schema_AddTableName (Schema_AddTableName m t ss) t ss' = Schema_AddTableName m t ss.
Proof.
  assert (F : found_in t (Schema_tableNames (Schema_AddTableName m t ss)) = true).
  { apply found_in_iff, Schema_AddTableName_In. now left. }
  unfold Schema_AddTableName at 1. rewrite F. reflexivity.
Qed.

Lemma Schema_AddTableName_tableMap_kept m t ss k v :
  Schema_tableMap m !! k = Some v ->
  Schema_tableMap (Schema_AddTableName m t ss) !! k = Some v.
Proof.
  unfold Schema_AddTableName.
  destruct (found_in t (Schema_tableNames m)); [auto|].
  destruct (Schema_tableMap m !! t) eqn:E; cbn; [auto|].
  intros Hv. destruct (decide (k = t)) as [-> | Hk]; [congruence|].
  rewrite lookup_insert_ne by congruence. exact Hv.
Qed.

Lemma Schema_AddTableName_sources_kept m t ss k :
  k <> t \/ is_Some (Schema_tableMap m !! t) ->
  tableSources (Schema_AddTableName m t ss) !! k = tableSources m !! k.
Proof.
  unfold Schema_AddTableName.
  destruct (found_in t (Schema_tableNames m)); [auto|].
  destruct (Schema_tableMap m !! t) eqn:E; cbn; [auto|].
  intros [Hk | [v Hv]]; [|discriminate].
  rewrite lookup_insert_ne by congruence. reflexivity.
Qed.

(** X20.  [Schema.AddTableName] never overwrites an entry of [tableMap]: every
    key bound before is bound to the same table afterwards, so a table that
    was loaded is not replaced by the nil placeholder; and the owner recorded
    in [tableSources] changes at most for the registered name, and only when
    that name had no entry in [tableMap]. *)
Theorem Schema_AddTableName_keeps_entries (m : Schema) (t ss k : string) :
  (forall v, Schema_tableMap m !! k = Some v ->
             Schema_tableMap (Schema_AddTableName m t ss) !! k = Some v) /\
  (k <> t \/ is_Some (Schema_tableMap m !! t) ->
   tableSources (Schema_AddTableName m t ss) !! k = tableSources m !! k).
Proof.
  split.
  - intros v. apply Schema_AddTableName_tableMap_kept.
  - apply Schema_AddTableName_sources_kept.
Qed.

Lemma Schema_AddTableName_consistent m t ss :
  Registry.Schema_consistent m -> Registry.Schema_consistent (Schema_AddTableName m t ss).
Proof.
  intros (N & A & L & S). unfold Schema_AddTableName.
  destruct (found_in t (Schema_tableNames m)) eqn:F; [repeat split; assumption|].
  assert (NF : ~ In t (Schema_tableNames m)).
  { intros H. apply found_in_iff in H. congruence. }
  destruct (Schema_tableMap m !! t) eqn:E; unfold Registry.Schema_consistent; cbn.
  - split; [apply NoDup_added; assumption|]. split; [apply sort_Strings_ascending|].
    split; [|exact S].
    intros n Hn. apply In_added in Hn. destruct Hn as [-> | Hn]; [eexists; exact E | apply L, Hn].
  - split; [apply NoDup_added; assumption|]. split; [apply sort_Strings_ascending|].
    split.
    + intros n Hn. apply In_added in Hn.
      destruct (decide (n = t)) as [-> | Hne].
      * rewrite lookup_insert_eq. eexists; reflexivity.
      * rewrite lookup_insert_ne by congruence. destruct Hn as [-> | Hn]; [congruence | apply L, Hn].
    + intros n. destruct (decide (n = t)) as [-> | Hne].
      * intros _. rewrite lookup_insert_eq. eexists; reflexivity.
      * rewrite !lookup_insert_ne by congruence. apply S.
Qed.

Lemma AddTableName_Conf m t : Conf (AddTableName m t) = Conf m.
Proof.
  unfold AddTableName.
  destruct ((0 <? length (TablesToLoad (Conf m)))%nat && negb (loadTable (Conf m) t));
    [reflexivity|].
  destruct (found_in t (tableNames m)); reflexivity.
Qed.

Lemma AddTableName_tableNames m t :
  tableNames (AddTableName m t) =
    if (0 <? length (TablesToLoad (Conf m)))%nat && negb (loadTable (Conf m) t)
    then tableNames m
    else if found_in t (tableNames m) then tableNames m
         else sort_Strings (tableNames m ++ [t]).
Proof.
  unfold AddTableName.
  destruct ((0 <? length (TablesToLoad (Conf m)))%nat && negb (loadTable (Conf m) t));
    [reflexivity|].
  destruct (found_in t (tableNames m)); reflexivity.
Qed.

Lemma found_in_added a b names :
  a <> b -> found_in a (sort_Strings (names ++ [b])) = found_in a names.
Proof.
  intros Hab. apply eq_true_iff_eq. rewrite !found_in_iff, In_added. tauto.
Qed.

Lemma sort_added_comm a b names :
  sort_Strings (sort_Strings (names ++ [a]) ++ [b]) =
  sort_Strings (sort_Strings (names ++ [b]) ++ [a]).
Proof.
  assert (P : forall x l, Permutation (sort_Strings (l ++ [x])) (x :: l)).
  { intros x l. etransitivity; [symmetry; apply sort_Strings_perm|].
    symmetry. apply Permutation_cons_append. }
  apply ascending_unique; try apply sort_Strings_ascending.
  etransitivity; [apply P|]. etransitivity; [apply perm_skip, P|].
  etransitivity; [apply perm_swap|].
  symmetry. etransitivity; [apply P|]. apply perm_skip, P.
Qed.

Lemma AddTableName_names_comm m a b :
  tableNames (AddTableName (AddTableName m a) b) =
  tableNames (AddTableName (AddTableName m b) a).
Proof.
  rewrite !AddTableName_tableNames, ?AddTableName_Conf, ?AddTableName_tableNames.
  destruct ((0 <? length (TablesToLoad (Conf m)))%nat && negb (loadTable (Conf m) a));
    destruct ((0 <? length (TablesToLoad (Conf m)))%nat && negb (loadTable (Conf m) b));
    try reflexivity.
  destruct (String.eqb_spec a b) as [-> | Hab]; [reflexivity|].
  destruct (found_in a (tableNames m)) eqn:Fa; destruct (found_in b (tableNames m)) eqn:Fb;
    rewrite ?Fa, ?Fb, ?found_in_added, ?Fa, ?Fb by congruence; try reflexivity.
  apply sort_added_comm.
Qed.

Lemma AddTableName_names_ext m1 m2 t :
  Conf m1 = Conf m2 -> tableNames m1 = tableNames m2 ->
  tableNames (AddTableName m1 t) = tableNames (AddTableName m2 t).
Proof. intros C N. rewrite !AddTableName_tableNames, C, N. reflexivity. Qed.

Lemma fold_AddTableName_ext l :
  forall m1 m2, Conf m1 = Conf m2 -> tableNames m1 = tableNames m2 ->
  Conf (fold_left AddTableName l m1) = Conf (fold_left AddTableName l m2) /\
  tableNames (fold_left AddTableName l m1) = tableNames (fold_left AddTableName l m2).
Proof.
  induction l as [|x l IH]; intros m1 m2 C N; cbn [fold_left]; [split; assumption|].
  apply IH; [rewrite !AddTableName_Conf; exact C | apply AddTableName_names_ext; assumption].
Qed.

Lemma fold_AddTableName_perm l1 l2 :
  Permutation l1 l2 ->
  forall m1 m2, Conf m1 = Conf m2 -> tableNames m1 = tableNames m2 ->
  Conf (fold_left AddTableName l1 m1) = Conf (fold_left AddTableName l2 m2) /\
  tableNames (fold_left AddTableName l1 m1) = tableNames (fold_left AddTableName l2 m2).
Proof.
  induction 1 as [|x l1 l2 P IH|x y l|l1 l2 l3 P1 IH1 P2 IH2]; intros m1 m2 C N.
  - split; assumption.
  - cbn [fold_left]. apply IH;
      [rewrite !AddTableName_Conf; exact C | apply AddTableName_names_ext; assumption].
  - cbn [fold_left]. apply fold_AddTableName_ext.
    + rewrite !AddTableName_Conf. exact C.
    + rewrite AddTableName_names_comm. apply AddTableName_names_ext.
      * rewrite !AddTableName_Conf. exact C.
      * apply AddTableName_names_ext; assumption.
  - destruct (IH1 m1 m1 eq_refl eq_refl) as [C1 N1].
    destruct (IH2 m1 m2 C N) as [C2 N2]. split; congruence.
Qed.

(** X21.  The table names of a source schema do not depend on the order in which
    the tables were registered: registering the same names in another order
    gives the same [Tables()]. *)
Theorem Tables_order_independent (m : SourceSchema) (l1 l2 : list string) :
  Permutation l1 l2 ->
  Tables (fold_left AddTableName l1 m) = Tables (fold_left AddTableName l2 m).
Proof.
  intros P. unfold Tables. apply (fold_AddTableName_perm l1 l2 P m m); reflexivity.
Qed.

(** X22.  [SourceSchema.AddTableName] is idempotent: registering a name a second
    time changes nothing, in the source schema or in its parent. *)
Theorem AddTableName_idempotent (m : SourceSchema) (t : string) :
  AddTableName (AddTableName m t) t = AddTableName m t.
Proof.
  unfold AddTableName at 1. rewrite AddTableName_Conf.
  destruct ((0 <? length (TablesToLoad (Conf m)))%nat && negb (loadTable (Conf m) t)) eqn:G;
    [reflexivity|].
  destruct (found_in t (tableNames (AddTableName m t))) eqn:F; [reflexivity|].
  exfalso. rewrite AddTableName_tableNames, G in F.
  destruct (found_in t (tableNames m)) eqn:F0; [congruence|].
  assert (F1 : found_in t (sort_Strings (tableNames m ++ [t])) = true)
    by (apply found_in_iff, In_added; now left).
  congruence.
Qed.

Lemma AddTableName_keeps_consistent (m : SourceSchema) (t : string) :
  Registry.consistent m ->
  Registry.consistent (AddTableName m t) /\
  forall k v, tableMap m !! k = Some v -> tableMap (AddTableName m t) !! k = Some v.
Proof.
  intros (N & A & L & P). unfold AddTableName.
  destruct ((0 <? length (TablesToLoad (Conf m)))%nat && negb (loadTable (Conf m) t));
    [split; [repeat split; assumption | auto]|].
  destruct (found_in t (tableNames m)) eqn:F; [split; [repeat split; assumption | auto]|].
  assert (NF : ~ In t (tableNames m)).
  { intros H. apply found_in_iff in H. congruence. }
  split.
  - unfold Registry.consistent; cbn.
    split; [apply NoDup_added; assumption|]. split; [apply sort_Strings_ascending|].
    split.
    + intros n Hn. apply In_added in Hn.
      destruct (tableMap m !! t) eqn:E.
      * destruct Hn as [-> | Hn]; [eexists; exact E | apply L, Hn].
      * destruct (decide (n = t)) as [-> | Hne].
        -- rewrite lookup_insert_eq. eexists; reflexivity.
        -- rewrite lookup_insert_ne by congruence.
           destruct Hn as [-> | Hn]; [congruence | apply L, Hn].
    + destruct (Parent m); [apply Schema_AddTableName_consistent, P | exact I].
  - cbn. intros k v Hk. destruct (tableMap m !! t) eqn:E; [exact Hk|].
    destruct (decide (k = t)) as [-> | Hne]; [congruence|].
    rewrite lookup_insert_ne by congruence. exact Hk.
Qed.

(** X23.  [SourceSchema.AddTableName] keeps the source schema consistent: the
    names stay ascending and without duplicates, every listed name has an entry
    in [tableMap], and the parent schema stays consistent too.  An entry of
    [tableMap] is never overwritten, so a loaded table is not replaced by the
    nil placeholder. *)
Theorem AddTableName_consistent (m : SourceSchema) (t : string) :
  Registry.consistent m ->
  Registry.consistent (AddTableName m t) /\
  forall k v, tableMap m !! k = Some v -> tableMap (AddTableName m t) !! k = Some v.
Proof. apply AddTableName_keeps_consistent. Qed.

(** X24.  A name that [SourceSchema.AddTableName] lists for the first time is
    passed on to the parent schema: the parent lists it afterwards, and when
    the parent knew nothing of the name it records this source schema as the
    owner and the nil placeholder as the table. *)
Theorem AddTableName_reaches_parent (m : SourceSchema) (s : Schema) (t : string) :
  Parent m = Some s ->
  ~ In t (tableNames m) ->
  In t (tableNames (AddTableName m t)) ->
  exists s', Parent (AddTableName m t) = Some s' /\
    In t (Schema_tableNames s') /\
    (~ In t (Schema_tableNames s) -> Schema_tableMap s !! t = None ->
     tableSources s' !! t = Some (Name m) /\ Schema_tableMap s' !! t = Some None).
Proof.
  intros HP NF Hin. unfold AddTableName in *.
  destruct ((0 <? length (TablesToLoad (Conf m)))%nat && negb (loadTable (Conf m) t));
    [contradiction|].
  destruct (found_in t (tableNames m)) eqn:F; [contradiction|].
  cbn. rewrite HP. eexists. split; [reflexivity|].
  split; [apply Schema_AddTableName_In; now left|].
  intros NS E. unfold Schema_AddTableName.
  destruct (found_in t (Schema_tableNames s)) eqn:FS;
    [apply found_in_iff in FS; contradiction|].
  rewrite E. cbn. rewrite !lookup_insert_eq. split; reflexivity.
Qed.

Lemma Schema_addTable_consistent s tbl owner :
  Registry.Schema_consistent s ->
  Registry.Schema_consistent (Registry.Schema_addTable s tbl owner).
Proof.
  intros (N & A & L & S). apply Schema_AddTableName_consistent.
  unfold Registry.Schema_consistent; cbn. repeat split; try assumption.
  - intros n Hn. destruct (decide (n = Table_Name tbl)) as [-> | Hne].
    + rewrite lookup_insert_eq. eexists; reflexivity.
    + rewrite lookup_insert_ne by congruence. apply L, Hn.
  - intros n. destruct (decide (n = Table_Name tbl)) as [-> | Hne].
    + intros _. rewrite lookup_insert_eq. eexists; reflexivity.
    + rewrite !lookup_insert_ne by congruence. apply S.
Qed.

Lemma Schema_addTable_lookup s tbl owner :
  Schema_tableMap (Registry.Schema_addTable s tbl owner) !! Table_Name tbl = Some (Some tbl) /\
  tableSources (Registry.Schema_addTable s tbl owner) !! Table_Name tbl = Some owner /\
  In (Table_Name tbl) (Schema_tableNames (Registry.Schema_addTable s tbl owner)).
Proof.
  unfold Registry.Schema_addTable.
  split; [|split; [|apply Schema_AddTableName_In; now left]].
  - apply Schema_AddTableName_tableMap_kept. cbn. apply lookup_insert_eq.
  - rewrite Schema_AddTableName_sources_kept; cbn.
    + apply lookup_insert_eq.
    + right. rewrite lookup_insert_eq. eexists; reflexivity.
Qed.

Section AddTableFacts.

Variable fnv_Sum64 : string -> Z.

Lemma AddTableName_tableMap_kept m t k v :
  tableMap m !! k = Some v -> tableMap (AddTableName m t) !! k = Some v.
Proof.
  unfold AddTableName.
  destruct ((0 <? length (TablesToLoad (Conf m)))%nat && negb (loadTable (Conf m) t)); [auto|].
  destruct (found_in t (tableNames m)); [auto|].
  cbn. intros Hk. destruct (tableMap m !! t) eqn:E; [exact Hk|].
  destruct (decide (k = t)) as [-> | Hne]; [congruence|].
  rewrite lookup_insert_ne by congruence. exact Hk.
Qed.

(** X25.  [AddTable] stores the table whatever the allowlist says.  The table is
    given the hash of its name as id and is bound to its name in [tableMap];
    a parent schema binds it too, records the owner and lists the name.  Only
    the source schema's own list of names obeys [TablesToLoad]: the name is
    listed there when it was listed before, when [TablesToLoad] is empty, or
    when the name is the [strings.ToLower] form of a listed name, so a table
    that the allowlist refuses is listed by the parent and not by the
    source. *)
Theorem AddTable_stores_table (m : SourceSchema) (tbl : Table) (owner : string) :
  let m' := fst (Registry.AddTable fnv_Sum64 m tbl owner) in
  let tbl' := snd (Registry.AddTable fnv_Sum64 m tbl owner) in
  let name := Table_Name tbl in
  Table_Name tbl' = name /\
  tblId tbl' = fnv_Sum64 name /\
  tableMap m' !! name = Some (Some tbl') /\
  (forall s, Parent m = Some s ->
     exists s', Parent m' = Some s' /\
       Schema_tableMap s' !! name = Some (Some tbl') /\
       tableSources s' !! name = Some owner /\
       In name (Schema_tableNames s')) /\
  (In name (Tables m') <->
   In name (Tables m) \/ TablesToLoad (Conf m) = []
   \/ In name (map ToLower (TablesToLoad (Conf m)))).
Proof.
  cbn zeta. unfold Registry.AddTable. cbn [fst snd Table_Name tblId].
  set (tbl' := {| Table_Name := Table_Name tbl; NameOriginal := NameOriginal tbl;
                  tblId := fnv_Sum64 (Table_Name tbl) |}).
  set (m1 := {| Name := Name m; Conf := Conf m;
                Parent := match Parent m with
                          | Some s => Some (Registry.Schema_addTable s tbl' owner)
                          | None => None
                          end;
                tableMap := <[Table_Name tbl := Some tbl']> (tableMap m);
                tableNames := tableNames m |}).
  split; [reflexivity|]. split; [reflexivity|].
  split; [apply AddTableName_tableMap_kept; cbn; apply lookup_insert_eq|].
  split.
  - intros s HP.
    destruct (Schema_addTable_lookup s tbl' owner) as (L1 & L2 & L3).
    change (Table_Name tbl') with (Table_Name tbl) in *.
    unfold AddTableName.
    destruct ((0 <? length (TablesToLoad (Conf m1)))%nat && negb (loadTable (Conf m1) (Table_Name tbl)));
      [|destruct (found_in (Table_Name tbl) (tableNames m1))].
    1,2: exists (Registry.Schema_addTable s tbl' owner); cbn; rewrite HP; auto.
    cbn. rewrite HP. eexists. split; [reflexivity|].
    split; [apply Schema_AddTableName_tableMap_kept, L1|].
    split; [|apply Schema_AddTableName_In; now left].
    rewrite Schema_AddTableName_sources_kept; [exact L2|].
    right. rewrite L1. eexists; reflexivity.
  - unfold Tables. rewrite AddTableName_tableNames. cbn [Conf tableNames m1].
    destruct (TablesToLoad (Conf m)) as [|x l] eqn:E; cbn [length Nat.ltb Nat.leb andb].
    + destruct (found_in (Table_Name tbl) (tableNames m)) eqn:F.
      * apply found_in_iff in F. tauto.
      * rewrite In_added. tauto.
    + change (0 <? S (length l))%nat with true. cbn [andb].
      rewrite <- E, <- loadTable_In.
      destruct (loadTable (Conf m) (Table_Name tbl)) eqn:LT; cbn [negb].
      * destruct (found_in (Table_Name tbl) (tableNames m)) eqn:F.
        -- apply found_in_iff in F. tauto.
        -- rewrite In_added. tauto.
      * split; [tauto|]. intros [H | [H | H]]; [exact H | congruence | discriminate].
Qed.

(** X26.  [AddTable] keeps a consistent source schema consistent, the parent
    schema included. *)
Theorem AddTable_consistent (m : SourceSchema) (tbl : Table) (owner : string) :
  Registry.consistent m ->
  Registry.consistent (fst (Registry.AddTable fnv_Sum64 m tbl owner)).
Proof.
  intros (N & A & L & P). unfold Registry.AddTable. cbn [fst].
  apply AddTableName_keeps_consistent.
  unfold Registry.consistent; cbn. repeat split; try assumption.
  - intros n Hn. destruct (decide (n = Table_Name tbl)) as [-> | Hne].
    + rewrite lookup_insert_eq. eexists; reflexivity.
    + rewrite lookup_insert_ne by congruence. apply L, Hn.
  - destruct (Parent m); [apply Schema_addTable_consistent, P | exact I].
Qed.

End AddTableFacts.

End TableNames.

(** ** Fields and columns of a table *)

Section FieldFacts.

Import TableFields.

Lemma replace_found_None fld fs :
  replace_found fld fs = None <-> field_named (Field_Name fld) fs = None.
Proof.
  unfold field_named. induction fs as [|cur r IH]; cbn; [tauto|].
  destruct (String.eqb (Field_Name cur) (Field_Name fld)); [split; discriminate|].
  destruct (replace_found fld r); [|tauto].
  split; [discriminate|]. intros H. apply IH in H. discriminate.
Qed.

Lemma field_named_None name fs :
  field_named name fs = None <-> ~ In name (map Field_Name fs).
Proof.
  unfold field_named. induction fs as [|cur r IH]; cbn; [tauto|].
  destruct (String.eqb_spec (Field_Name cur) name) as [E | NE].
  - split; [discriminate | intros H; exfalso; apply H; now left].
  - rewrite IH. tauto.
Qed.

Lemma replace_found_Some fld fs fs' :
  replace_found fld fs = Some fs' ->
  map Field_Name fs' = map Field_Name fs /\
  (forall name, field_named name fs' =
     if String.eqb (Field_Name fld) name then Some fld else field_named name fs).
Proof.
  unfold field_named. revert fs'. induction fs as [|cur r IH]; intros fs'; cbn; [discriminate|].
  destruct (String.eqb_spec (Field_Name cur) (Field_Name fld)) as [E | NE].
  - intros [= <-]. cbn. split; [now rewrite E|].
    intros name. rewrite E. destruct (String.eqb (Field_Name fld) name); reflexivity.
  - destruct (replace_found fld r) as [r'|]; [|discriminate].
    intros [= <-]. destruct (IH r' eq_refl) as [M F]. cbn. split; [now rewrite M|].
    intros name. destruct (String.eqb_spec (Field_Name cur) name) as [E1 | NE1].
    + destruct (String.eqb_spec (Field_Name fld) name); [congruence | reflexivity].
    + apply F.
Qed.

Lemma field_named_app name fs f :
  field_named name (fs ++ [f]) =
    match field_named name fs with
    | Some g => Some g
    | None => if String.eqb (Field_Name f) name then Some f else None
    end.
Proof.
  unfold field_named. induction fs as [|cur r IH]; cbn; [reflexivity|].
  destruct (String.eqb (Field_Name cur) name); [reflexivity | exact IH].
Qed.

(** X27.  [AddField] keeps a table's fields consistent: the field names stay
    unique, and [FieldMap] holds under each name the field that [Fields]
    holds under it. *)
Theorem AddField_consistent (m : Table) (fld : Field) :
  fields_consistent m -> fields_consistent (fst (AddField m fld)).
Proof.
  intros [N M]. unfold AddField, fields_consistent.
  destruct (replace_found fld (Fields m)) as [fs|] eqn:R; cbn [fst Fields FieldMap Field_Name].
  - destruct (replace_found_Some _ _ _ R) as [Hn Hf]. split; [now rewrite Hn|].
    intros name. rewrite Hf.
    destruct (String.eqb_spec (Field_Name fld) name) as [<- | NE].
    + apply lookup_insert_eq.
    + rewrite lookup_insert_ne by congruence. apply M.
  - apply replace_found_None in R. split.
    + rewrite map_app. cbn [map Field_Name]. eapply Permutation_NoDup; [apply Permutation_cons_append|].
      constructor; [apply field_named_None, R | exact N].
    + intros name. rewrite field_named_app. cbn [Field_Name].
      destruct (String.eqb_spec (Field_Name fld) name) as [<- | NE].
      * rewrite lookup_insert_eq, R. reflexivity.
      * rewrite lookup_insert_ne by congruence. rewrite M.
        destruct (field_named name (Fields m)); reflexivity.
Qed.

(** X28.  After [AddField] the table has the added field, and has any other
    field exactly when it had it before. *)
Theorem HasField_AddField (m : Table) (fld : Field) (name : string) :
  HasField (fst (AddField m fld)) name =
  String.eqb (Field_Name fld) name || HasField m name.
Proof.
  unfold AddField, HasField.
  destruct (replace_found fld (Fields m)); cbn;
    (destruct (String.eqb_spec (Field_Name fld) name) as [<- | NE];
     [rewrite lookup_insert_eq; reflexivity
     | rewrite lookup_insert_ne by congruence; reflexivity]).
Qed.

Lemma replace_found_at fld fs :
  forall i cur,
    List.NoDup (map Field_Name fs) ->
    fs !! i = Some cur -> Field_Name cur = Field_Name fld ->
    replace_found fld fs = Some (<[i := fld]> fs).
Proof.
  induction fs as [|c r IH]; intros i cur N Hi E; [discriminate|].
  cbn [replace_found]. destruct i as [|i]; cbn in Hi.
  - injection Hi as ->. rewrite E, String.eqb_refl. reflexivity.
  - cbn in N. inversion N as [|? ? Hc N']; subst.
    destruct (String.eqb_spec (Field_Name c) (Field_Name fld)) as [Ec | _].
    + exfalso. apply Hc. rewrite Ec, <- E. apply in_map.
      apply list_elem_of_In. eapply list_elem_of_lookup_2. exact Hi.
    + rewrite (IH i cur N' Hi E). reflexivity.
Qed.

(** X29.  [AddField] numbers a field only when its name is new.  A field with a
    new name is appended and its [idx] is set to its position; a field whose
    name the table already has replaces the old one in place, the number of
    fields stays, and its [idx] is left as the caller set it, whatever the
    position. *)
Theorem AddField_idx (m : Table) (fld : Field) :
  fields_consistent m ->
  (HasField m (Field_Name fld) = false ->
     Fields (fst (AddField m fld)) = (Fields m ++ [snd (AddField m fld)])%list /\
     idx (snd (AddField m fld)) = Z.of_nat (List.length (Fields m))) /\
  (forall i cur, Fields m !! i = Some cur -> Field_Name cur = Field_Name fld ->
     Fields (fst (AddField m fld)) = <[i := fld]> (Fields m) /\
     snd (AddField m fld) = fld /\
     List.length (Fields (fst (AddField m fld))) = List.length (Fields m)).
Proof.
  intros [N M]. split.
  - unfold HasField. rewrite M. intros H.
    assert (R : replace_found fld (Fields m) = None).
    { apply replace_found_None. destruct (field_named _ _); [discriminate | reflexivity]. }
    unfold AddField. rewrite R. cbn. split; reflexivity.
  - intros i cur Hi E. unfold AddField.
    rewrite (replace_found_at fld (Fields m) i cur N Hi E). cbn.
    split; [reflexivity|]. split; [reflexivity|]. apply length_insert.
Qed.

Lemma positions_lookup cols :
  forall k mp c i,
    positions k cols mp !! c = Some i <->
    (exists j : nat, i = k + Z.of_nat j /\ cols !! j = Some c /\
                     forall j' : nat, (j < j')%nat -> cols !! j' <> Some c)
    \/ (mp !! c = Some i /\ ~ In c cols).
Proof.
  induction cols as [|col r IH]; intros k mp c i; cbn [positions].
  - split.
    + intros H. right. split; [exact H | intros []].
    + intros [(j & _ & Hj & _) | [H _]]; [discriminate | exact H].
  - rewrite IH. split.
    + intros [(j & -> & Hj & Hlast) | [Hm Hn]].
      * left. exists (S j). split; [lia|]. split; [exact Hj|].
        intros [|j'] Hlt; [lia|]. cbn. apply Hlast. lia.
      * destruct (decide (col = c)) as [-> | NE].
        -- rewrite lookup_insert_eq in Hm. injection Hm as <-.
           left. exists 0%nat. split; [lia|]. split; [reflexivity|].
           intros [|j'] Hlt; [lia|]. cbn. intros Hj. apply Hn.
           apply list_elem_of_In. eapply list_elem_of_lookup_2. exact Hj.
        -- rewrite lookup_insert_ne in Hm by congruence.
           right. split; [exact Hm|]. cbn. tauto.
    + intros [(j & -> & Hj & Hlast) | [Hm Hn]].
      * destruct j as [|j].
        -- cbn in Hj. injection Hj as ->. right. split.
           ++ rewrite lookup_insert_eq. f_equal. lia.
           ++ intros Hin. apply list_elem_of_In, list_elem_of_lookup_1 in Hin.
              destruct Hin as [j' Hj']. apply (Hlast (S j')); [lia | exact Hj'].
        -- left. exists j. split; [lia|]. split; [exact Hj|].
           intros j' Hlt. apply (Hlast (S j')). lia.
      * right. cbn in Hn. split; [|tauto].
        rewrite lookup_insert_ne; [exact Hm|]. intros ->. apply Hn. now left.
Qed.

(** X30.  [SetColumns] maps a column name to a position exactly when that is
    the last position at which the name occurs in the column list: names that
    are not columns have no position, whatever positions the table held
    before, and of a name listed twice only the last place is kept. *)
Theorem SetColumns_positions (m : Table) (columns : list string) (c : string) (i : Z) :
  FieldNamesPositions (SetColumns m columns) !! c = Some i <->
  exists j : nat, i = Z.of_nat j /\ Columns (SetColumns m columns) !! j = Some c /\
                  forall j' : nat, (j < j')%nat -> columns !! j' <> Some c.
Proof.
  unfold FieldNamesPositions, Columns, SetColumns. cbn.
  rewrite positions_lookup. split.
  - intros [(j & -> & H) | [H _]]; [exists j; split; [lia | exact H]|].
    rewrite lookup_empty in H. discriminate.
  - intros (j & -> & H). left. exists j. split; [lia | exact H].
Qed.

End FieldFacts.

(** * The further properties on concrete inputs *)

(** [MaxInt64 + 1] wraps around to [MinInt64], which is in range. *)
Lemma operateInts_in_int64_witness :
  operateInts (tok TokenPlus) int64_max 1 = Ret (IntValue int64_min)
  /\ in_int64 int64_min = true.
Proof.
  split; [reflexivity|].
  exact (proj1 (operateInts_in_int64 (tok TokenPlus) int64_max 1 int64_min
                  eq_refl eq_refl eq_refl)).
Defined.

(** [NaN + 1] is NaN. *)
Lemma operateNumbers_NaN_witness :
  operateNumbers (tok TokenPlus) NaN 1 = Ret (NumberValue NaN).
Proof. exact (operateNumbers_NaN (tok TokenPlus) NaN 1%float (or_introl eq_refl)). Defined.

(** [true OR ip] on a row without [ip] fails. *)
Lemma walkBinary_is_eager_witness :
  walkBinary (VP := Stock.pkg) (SP := Stock.ascii_strings) empty_row (tok TokenLogicOr)
    (IdentityNode "true") (IdentityNode "ip")
  = Ret (nil_Value, Err "aerr berr").
Proof.
  apply (proj2 (walkBinary_is_eager (VP := Stock.pkg) (SP := Stock.ascii_strings)
      empty_row (tok TokenLogicOr)
                  (IdentityNode "true") (IdentityNode "ip") _ eq_refl)
           (nil_Value, OkFalse) eq_refl).
  right. reflexivity.
Defined.

(** [EXISTS name] on the row of bob. *)
Lemma walkUnary_exists_witness :
  exists flag,
    walkUnary (VP := Stock.pkg) (SP := Stock.ascii_strings)
        bob {| T := TokenExists; V := "exists" |} (IdentityNode "name")
    = Ret (BoolValue true, flag)
    /\ failed flag = false.
Proof.
  exact (walkUnary_exists (VP := Stock.pkg) (SP := Stock.ascii_strings)
      bob (IdentityNode "name") (StringValue "bob")
           OkTrue "exists" eq_refl).
Defined.

(** [!true] and [!!true]. *)
Lemma walkUnary_negate_witness :
  walkUnary (VP := Stock.pkg) (SP := Stock.ascii_strings)
      empty_row {| T := TokenNegate; V := "!" |} (IdentityNode "true")
  = Ret (BoolValue false, OkTrue)
  /\ walkUnary (VP := Stock.pkg) (SP := Stock.ascii_strings)
      empty_row {| T := TokenNegate; V := "!" |}
       (UnaryNode {| T := TokenNegate; V := "!" |} (IdentityNode "true"))
     = Ret (BoolValue true, OkTrue).
Proof.
  exact (walkUnary_negate (VP := Stock.pkg) (SP := Stock.ascii_strings)
      empty_row (IdentityNode "true") (BoolValue true)
           ErrNil "!" eq_refl eq_refl).
Defined.

(** [-5] is the Number [-5.0]. *)
Lemma walkUnary_minus_witness :
  walkUnary (VP := Stock.pkg) (SP := Stock.ascii_strings)
      empty_row {| T := TokenMinus; V := "-" |} (int_lit 5)
  = Ret (NumberValue (PrimFloat.opp (float64_of_int64 5)), OkTrue).
Proof.
  exact (proj1 (walkUnary_minus (VP := Stock.pkg) (SP := Stock.ascii_strings)
      empty_row (int_lit 5) (IntValue 5)
                  ErrNil "-" eq_refl eq_refl)).
Defined.

(** [age IN (1, 42)] on the row of bob. *)
Lemma walkMulti_in_list_witness :
  walkMulti (VP := Stock.pkg) (SP := Stock.ascii_strings) bob {| T := TokenIN; V := "in" |}
    [IdentityNode "age"; int_lit 1; int_lit 42]
  = Ret (BoolValue true, OkTrue).
Proof.
  refine (eq_trans
            (walkMulti_in_list (VP := Stock.pkg) (SP := Stock.ascii_strings)
                bob (IdentityNode "age")
               [int_lit 1; int_lit 42] (IntValue 42) OkTrue
               [(IntValue 1, ErrNil); (IntValue 42, ErrNil)] "in"
               eq_refl eq_refl eq_refl _) _).
  - repeat constructor.
  - reflexivity.
Defined.

(** ["x" IN tags] on a row whose [tags] are [["x", "y"]]. *)
Lemma walkMulti_in_identity_witness :
  walkMulti (VP := Stock.pkg) (SP := Stock.ascii_strings)
      (Stock.row [("tags", StringsValue ["x"; "y"])])
    {| T := TokenIN; V := "in" |} [StringNode "x"; IdentityNode "tags"]
  = Ret (BoolValue true, OkTrue).
Proof.
  exact (walkMulti_in_identity (VP := Stock.pkg) (SP := Stock.ascii_strings)
           {| Get := Stock.row_Get [("tags", StringsValue ["x"; "y"])] |}
           (StringNode "x") "tags" (StringValue "x") ErrNil "in" eq_refl eq_refl eq_refl).
Defined.

(** The closure for the literal [1]. *)
Lemma Evaluator_Eval_witness :
  Evaluator (VP := Stock.pkg) (SP := Stock.ascii_strings)
      (int_lit 1) empty_row = Eval (VP := Stock.pkg) (SP := Stock.ascii_strings)
          empty_row (int_lit 1).
Proof.
  apply (proj1 (Evaluator_Eval (VP := Stock.pkg) (SP := Stock.ascii_strings)
      (int_lit 1) empty_row)). discriminate.
Defined.

(** [1 + 2] on the row of bob and without a row. *)
Lemma Eval_closed_witness :
  Eval (VP := Stock.pkg) (SP := Stock.ascii_strings)
      bob (BinaryNode (tok TokenPlus) (int_lit 1) (int_lit 2))
  = Eval (VP := Stock.pkg) (SP := Stock.ascii_strings)
      None (BinaryNode (tok TokenPlus) (int_lit 1) (int_lit 2)).
Proof.
  exact (Eval_closed (VP := Stock.pkg) (SP := Stock.ascii_strings)
      (BinaryNode (tok TokenPlus) (int_lit 1) (int_lit 2))
           eq_refl bob None).
Defined.

(** [sqrt("x")]: the NaN that [SqrtFunc] hands back is dropped. *)
Lemma walkFunc_result_witness :
  walkFunc (VP := Stock.pkg) (SP := Stock.ascii_strings) empty_row "sqrt"
    (SqrtFunc (VP := Stock.pkg)) [StringNode "x"]
  = Ret (EmptyStringValue, OkFalse)
  /\ (OkFalse = OkTrue \/ (EmptyStringValue = EmptyStringValue /\ OkFalse = OkFalse)).
Proof.
  split; [reflexivity|].
  exact (walkFunc_result (VP := Stock.pkg) (SP := Stock.ascii_strings)
      empty_row "sqrt" (SqrtFunc (VP := Stock.pkg)) [StringNode "x"]
           EmptyStringValue OkFalse eq_refl).
Defined.

(** [count(note)] on the row of bob, whose [note] is NULL. *)
Lemma walkFunc_count_witness :
  walkFunc (VP := Stock.pkg) (SP := Stock.ascii_strings)
      bob "count" (CountFunc (VP := Stock.pkg)) [IdentityNode "note"]
  = Ret (EmptyStringValue, OkFalse)
  /\ ((EmptyStringValue = IntValue 1 /\ OkFalse = OkTrue)
      \/ (EmptyStringValue = EmptyStringValue /\ OkFalse = OkFalse)).
Proof.
  split; [reflexivity|].
  exact (walkFunc_count (VP := Stock.pkg) (SP := Stock.ascii_strings)
      bob "count" [IdentityNode "note"]
           EmptyStringValue OkFalse eq_refl).
Defined.

(** [count("a", <nil node>)]. *)
Lemma walkFunc_unknown_arg_witness :
  walkFunc (VP := Stock.pkg) (SP := Stock.ascii_strings)
      empty_row "count" (CountFunc (VP := Stock.pkg)) [StringNode "a"; nil_Node]
  = Panic (ErrorPanic "expr: unknown func arg type").
Proof.
  exact (walkFunc_unknown_arg (VP := Stock.pkg) (SP := Stock.ascii_strings)
      empty_row "count" (CountFunc (VP := Stock.pkg))
           [StringNode "a"] nil_Node [] eq_refl eq_refl).
Defined.

(** [name, ip, name] on the row of bob, which has no [ip]: the first [name]
    is written, then the statement stops. *)
Lemma EvalSql_column_failure_witness :
  EvalSql (VP := Stock.pkg) (SP := Stock.ascii_strings)
    {| Columns := [col_name] ++ {| As := "i"; Expr := IdentityNode "ip"; Guard := nil_Node |}
                               :: [col_name];
       Where := nil_Node |} [] bob
  = ([(ColumnInfo col_name, StringValue "bob")], Ret (false, OkFalse)).
Proof.
  assert (P : projects (VP := Stock.pkg) (SP := Stock.ascii_strings) bob [col_name]
                [(ColumnInfo col_name, StringValue "bob")]).
  { apply (projects_keep _ col_name [] _ (StringValue "bob") OkTrue);
      [left; reflexivity | reflexivity | reflexivity | apply projects_nil]. }
  apply (proj1 (EvalSql_column_failure (VP := Stock.pkg) (SP := Stock.ascii_strings)
      bob [] nil_Node [col_name]
                  {| As := "i"; Expr := IdentityNode "ip"; Guard := nil_Node |} [col_name]
                  [(ColumnInfo col_name, StringValue "bob")]
                  (or_introl eq_refl) P (or_introl eq_refl))
           nil_Value OkFalse); reflexivity.
Defined.

(** A column guarded by [ip] on the row of bob: the guard fails and the
    column is left out. *)
Lemma EvalSql_guard_failure_witness :
  EvalSql (VP := Stock.pkg) (SP := Stock.ascii_strings)
    {| Columns := [col_name] ++ {| As := "a"; Expr := IdentityNode "age";
                                   Guard := IdentityNode "ip" |} :: [col_name];
       Where := nil_Node |} [] bob
  = EvalSql (VP := Stock.pkg) (SP := Stock.ascii_strings)
      {| Columns := [col_name] ++ [col_name]; Where := nil_Node |} [] bob.
Proof.
  exact (EvalSql_guard_failure (VP := Stock.pkg) (SP := Stock.ascii_strings)
      bob [] nil_Node [col_name]
           {| As := "a"; Expr := IdentityNode "age"; Guard := IdentityNode "ip" |}
           [col_name] nil_Value OkFalse eq_refl eq_refl eq_refl).
Defined.

(** The source [csv] registers [users] in a schema that holds the table
    [users] of [mysql]: the table and its owner stay. *)
Lemma Schema_AddTableName_keeps_entries_witness :
  Schema.Schema_tableMap (Schema.Schema_AddTableName Catalog.catalog_users "users" "csv")
    !! "users" = Some (Some Catalog.users_tbl)
  /\ Schema.tableSources (Schema.Schema_AddTableName Catalog.catalog_users "users" "csv")
       !! "users" = Some "mysql".
Proof.
  destruct (Schema_AddTableName_keeps_entries Catalog.catalog_users "users" "csv" "users")
    as [H1 H2].
  split.
  - apply H1. reflexivity.
  - rewrite H2; [reflexivity|]. right. exists (Some Catalog.users_tbl). reflexivity.
Defined.

(** [b] then [a], and [a] then [b]. *)
Lemma Tables_order_independent_witness :
  Schema.Tables (fold_left (Schema.AddTableName (SP := Stock.ascii_strings)
      ) ["b"; "a"] Catalog.memdb)
  = Schema.Tables (fold_left (Schema.AddTableName (SP := Stock.ascii_strings)
      ) ["a"; "b"] Catalog.memdb).
Proof.
  exact (Tables_order_independent (SP := Stock.ascii_strings)
      Catalog.memdb ["b"; "a"] ["a"; "b"] (perm_swap _ _ _)).
Defined.

Lemma catalog_consistent : Registry.Schema_consistent Catalog.catalog.
Proof.
  split; [constructor|]. split; [exact I|]. split; [intros n []|].
  intros n [v Hv]. cbn in Hv. rewrite lookup_empty in Hv. discriminate Hv.
Defined.

Lemma csv_in_catalog_consistent : Registry.consistent Catalog.csv_in_catalog.
Proof.
  split; [constructor|]. split; [exact I|]. split; [intros n []|].
  exact catalog_consistent.
Defined.

(** [users] is registered by the source [csv] of the empty schema. *)
Lemma AddTableName_consistent_witness :
  Registry.consistent (Schema.AddTableName (SP := Stock.ascii_strings)
      Catalog.csv_in_catalog "users").
Proof.
  exact (proj1 (AddTableName_consistent (SP := Stock.ascii_strings) Catalog.csv_in_catalog "users"
                  csv_in_catalog_consistent)).
Defined.

(** The empty schema learns of [users] from the source [csv]. *)
Lemma AddTableName_reaches_parent_witness :
  exists s', Schema.Parent (Schema.AddTableName (SP := Stock.ascii_strings)
      Catalog.csv_in_catalog "users") = Some s'
    /\ In "users" (Schema.Schema_tableNames s')
    /\ Schema.tableSources s' !! "users" = Some "csv"
    /\ Schema.Schema_tableMap s' !! "users" = Some None.
Proof.
  destruct (AddTableName_reaches_parent (SP := Stock.ascii_strings)
      Catalog.csv_in_catalog Catalog.catalog "users"
              eq_refl (fun H : In "users" [] => H) (or_introl eq_refl))
    as (s' & HP & Hin & H).
  exists s'. split; [exact HP|]. split; [exact Hin|].
  apply H; [intros [] | reflexivity].
Defined.

(** The source [csv] loads only [users]; the table [orders] is added to it.
    The table gets the hash of its name, the source and the schema hold it,
    the schema lists it and the source does not. *)
Lemma AddTable_stores_table_witness :
  Schema.tblId (snd (Registry.AddTable (SP := Stock.ascii_strings)
      Catalog.fnv1_64 Catalog.csv_in_catalog
                       Catalog.orders_tbl "csv")) = 16156864712920496386
  /\ (exists s',
        Schema.Parent (fst (Registry.AddTable (SP := Stock.ascii_strings)
            Catalog.fnv1_64 Catalog.csv_in_catalog
                              Catalog.orders_tbl "csv")) = Some s'
        /\ In "orders" (Schema.Schema_tableNames s'))
  /\ ~ In "orders" (Schema.Tables (fst (Registry.AddTable (SP := Stock.ascii_strings)
      Catalog.fnv1_64
                                         Catalog.csv_in_catalog Catalog.orders_tbl "csv"))).
Proof.
  destruct (AddTable_stores_table (SP := Stock.ascii_strings)
      Catalog.fnv1_64 Catalog.csv_in_catalog Catalog.orders_tbl "csv")
    as (_ & Hid & _ & HP & Hin).
  split; [rewrite Hid; reflexivity|]. split.
  - destruct (HP Catalog.catalog eq_refl) as (s' & H1 & _ & _ & H4).
    exists s'. split; assumption.
  - intros H. apply Hin in H. destruct H as [[] | [H | [H | []]]]; discriminate H.
Defined.

(** The same table and source: the source stays consistent. *)
Lemma AddTable_consistent_witness :
  Registry.consistent (fst (Registry.AddTable (SP := Stock.ascii_strings)
      Catalog.fnv1_64 Catalog.csv_in_catalog
                              Catalog.orders_tbl "csv")).
Proof.
  exact (AddTable_consistent (SP := Stock.ascii_strings)
      Catalog.fnv1_64 Catalog.csv_in_catalog Catalog.orders_tbl "csv"
           csv_in_catalog_consistent).
Defined.

Lemma people_consistent : TableFields.fields_consistent Catalog.people.
Proof.
  split.
  - constructor; [intros [] | constructor].
  - intros name. unfold TableFields.field_named, Catalog.people.
    cbn [TableFields.FieldMap TableFields.Fields List.find].
    change (TableFields.Field_Name Catalog.name_fld) with "name".
    destruct (String.eqb_spec "name" name) as [<- | NE].
    + apply lookup_singleton_eq.
    + apply lookup_singleton_ne. exact NE.
Defined.

(** The field [age] is added to the table with the field [name]. *)
Lemma AddField_consistent_witness :
  TableFields.fields_consistent (fst (TableFields.AddField Catalog.people Catalog.age_fld)).
Proof. exact (AddField_consistent Catalog.people Catalog.age_fld people_consistent). Defined.

(** A second field [name], numbered 7 by its maker, replaces the first at
    position 0 and keeps its number; the field [age] is appended and
    numbered 1. *)
Lemma AddField_idx_witness :
  TableFields.Fields (fst (TableFields.AddField Catalog.people Catalog.name_fld'))
    = [Catalog.name_fld']
  /\ TableFields.idx (snd (TableFields.AddField Catalog.people Catalog.name_fld')) = 7
  /\ TableFields.idx (snd (TableFields.AddField Catalog.people Catalog.age_fld)) = 1.
Proof.
  destruct (AddField_idx Catalog.people Catalog.name_fld' people_consistent) as [_ H].
  destruct (H 0%nat Catalog.name_fld eq_refl eq_refl) as (H1 & H2 & _).
  destruct (AddField_idx Catalog.people Catalog.age_fld people_consistent) as [H' _].
  destruct (H' eq_refl) as [_ H3].
  split; [exact H1|]. split; [rewrite H2; reflexivity | exact H3].
Defined.
